(** * AI-Batch-Queue: a shallow embedding of [BatchQueue] and [EtaTracker]

    Sources: src/AI-Batch-Queue/src/types.rs, eta.rs and queue.rs.

    Modelling conventions.
    - [String] is [string]; Rust's [String::cmp] is byte-wise lexicographic,
      which is [String.compare] (ascii characters compared as bytes).
    - [u64] is [N] with the wrap-around of a release build written out
      ([u64_add]); [usize] counts of list elements are [nat].
    - The two [Mutex]es are modelled as always lockable: none of the
      modelled paths can panic while holding a lock, so no lock is poisoned.
    - Timestamps are the RFC 3339 strings [chrono::Utc::now().to_rfc3339()]
      returns; each operation that reads the clock takes the reading [now]
      as an argument, and [enqueue] takes the [uuid] [Uuid::new_v4] would
      produce. *)

From stdpp Require Import base list gmap strings countable pretty.
From Stdlib Require Import Sorting.Sorted.

(* ------------------------------------------------------------------ *)
(** ** types.rs *)

Inductive BatchItemStatus :=
  | ItemPending | ItemRunning | ItemCompleted | ItemFailed | ItemSkipped
  | ItemCancelled.

Inductive BatchJobStatus :=
  | Queued | Running | Completed | CompletedWithErrors | Cancelled.

Inductive OverwritePolicy := Skip | Overwrite.

Inductive SizeBucket := Small | Medium | Large | Unknown.

#[global] Instance BatchItemStatus_eq_dec : EqDecision BatchItemStatus.
Proof. solve_decision. Defined.
#[global] Instance BatchJobStatus_eq_dec : EqDecision BatchJobStatus.
Proof. solve_decision. Defined.
#[global] Instance SizeBucket_eq_dec : EqDecision SizeBucket.
Proof. solve_decision. Defined.

Definition SizeBucket_to_nat (b : SizeBucket) : nat :=
  match b with Small => 0 | Medium => 1 | Large => 2 | Unknown => 3 end.
Definition SizeBucket_of_nat (n : nat) : SizeBucket :=
  match n with 0 => Small | 1 => Medium | 2 => Large | _ => Unknown end.

(** [#[derive(Hash)]] on [SizeBucket]: it can key a map. *)
#[global] Instance SizeBucket_countable : Countable SizeBucket.
Proof.
  apply (inj_countable' SizeBucket_to_nat SizeBucket_of_nat).
  by intros [].
Defined.

#[global] Instance OverwritePolicy_eq_dec : EqDecision OverwritePolicy.
Proof. solve_decision. Defined.

(** [SizeBucket::from_pixel_count]. *)
Definition from_pixel_count (pixels : N) : SizeBucket :=
  if decide (pixels < 500000)%N then Small
  else if decide (pixels < 2000000)%N then Medium
  else Large.

(** [SizeBucket::from_dimensions]: [u32] dimensions widened to [u64] and
    multiplied with the [u64] wrap-around of a release build. *)
Definition from_dimensions (width height : option N) : SizeBucket :=
  match width, height with
  | Some w, Some h => from_pixel_count ((w * h) `mod` (2 ^ 64))%N
  | _, _ => Unknown
  end.

(** [BatchItem<D>]; field names carry an [item_] prefix where the Rust
    field name is shared with [BatchJob]. *)
Record BatchItem (D : Type) := {
  item_id : string;
  data : D;
  item_status : BatchItemStatus;
  item_error : option string;
  duration_ms : option N;
  size_bucket : SizeBucket;
}.
Arguments item_id {D} _.
Arguments data {D} _.
Arguments item_status {D} _.
Arguments item_error {D} _.
Arguments duration_ms {D} _.
Arguments size_bucket {D} _.

(** [BatchJob<D>]. *)
Record BatchJob (D : Type) := {
  job_id : string;
  resource_key : string;
  operation : string;
  overwrite_policy : OverwritePolicy;
  items : list (BatchItem D);
  job_status : BatchJobStatus;
  created_at : string;
  started_at : option string;
  completed_at : option string;
  reordered : bool;
  reorder_note : option string;
}.
Arguments job_id {D} _.
Arguments resource_key {D} _.
Arguments operation {D} _.
Arguments overwrite_policy {D} _.
Arguments items {D} _.
Arguments job_status {D} _.
Arguments created_at {D} _.
Arguments started_at {D} _.
Arguments completed_at {D} _.
Arguments reordered {D} _.
Arguments reorder_note {D} _.

(** [BatchCompletionSummary]. *)
Record BatchCompletionSummary := {
  summary_job_id : string;
  summary_operation : string;
  summary_resource_key : string;
  total : nat;
  succeeded : nat;
  failed : nat;
  skipped : nat;
  total_duration_ms : N;
  avg_duration_ms : N;
}.

(** [u64] addition as a release build performs it (wrapping). *)
Definition u64_modulus : N := 2 ^ 64.
Definition u64_add (a b : N) : N := (a + b) `mod` u64_modulus.

(** The mathematical sum of a list of naturals. *)
Definition sum_N (l : list N) : N := foldr N.add 0%N l.

(* ------------------------------------------------------------------ *)
(** ** eta.rs *)

(** [EtaKey { resource_key, operation, size_bucket }]. *)
Abbreviation EtaKey := (string * string * SizeBucket)%type.

Record EtaStats := { total_ms : N; count : N }.

Definition avg_ms (s : EtaStats) : N :=
  if decide (count s = 0%N) then 0%N else (total_ms s `div` count s)%N.

(** [EtaTracker.data : Mutex<HashMap<EtaKey, EtaStats>>]. *)
Abbreviation EtaTracker := (gmap EtaKey EtaStats).

Definition record (eta : EtaTracker) (resource_key operation : string)
    (size_bucket : SizeBucket) (duration_ms : N) : EtaTracker :=
  let key := (resource_key, operation, size_bucket) in
  let entry := default {| total_ms := 0; count := 0 |} (eta !! key) in
  <[key := {| total_ms := u64_add (total_ms entry) duration_ms;
              count := u64_add (count entry) 1 |}]> eta.

Definition estimate_one (eta : EtaTracker) (resource_key operation : string)
    (size_bucket : SizeBucket) : option N :=
  match eta !! (resource_key, operation, size_bucket) with
  | Some stats => Some (avg_ms stats)
  | None => avg_ms <$> eta !! (resource_key, operation, Unknown)
  end.

(** One iteration of the [for &bucket in remaining_buckets] loop of
    [estimate_remaining], on the accumulators [(total_estimate, has_data)]. *)
Definition estimate_remaining_step (eta : EtaTracker)
    (resource_key operation : string) (acc : N * bool) (bucket : SizeBucket)
    : N * bool :=
  let '(total_estimate, has_data) := acc in
  match eta !! (resource_key, operation, bucket) with
  | Some stats => (u64_add total_estimate (avg_ms stats), true)
  | None =>
      match eta !! (resource_key, operation, Unknown) with
      | Some stats => (u64_add total_estimate (avg_ms stats), true)
      | None => (total_estimate, has_data)
      end
  end.

Definition estimate_remaining (eta : EtaTracker) (resource_key operation : string)
    (remaining_buckets : list SizeBucket) : option N :=
  let '(total_estimate, has_data) :=
    fold_left (estimate_remaining_step eta resource_key operation)
      remaining_buckets (0%N, false) in
  if has_data then Some total_estimate else None.

Definition sample_count (eta : EtaTracker) (resource_key operation : string)
    (size_bucket : SizeBucket) : N :=
  default 0%N (count <$> eta !! (resource_key, operation, size_bucket)).

(* ------------------------------------------------------------------ *)
(** ** queue.rs *)

(** [BatchQueue<D> { jobs: Mutex<Vec<BatchJob<D>>>, eta: EtaTracker }]. *)
Record BatchQueue (D : Type) := {
  jobs : list (BatchJob D);
  eta : EtaTracker;
}.
Arguments jobs {D} _.
Arguments eta {D} _.

(** The [anyhow::Error]s the modelled operations can return. *)
Inductive QueueError :=
  (** ["No failed items to retry in job {}"] *)
  | NoFailedItems (job_id : string).

(** [anyhow::Result<A>]. *)
Inductive Result (A : Type) :=
  | Ok (a : A)
  | Err (e : QueueError).
Arguments Ok {A} a.
Arguments Err {A} e.

Definition reorder_note_text : string :=
  "Reordered: grouping by resource to minimize swaps".

Section Queue.
Context {D : Type}.

Implicit Types (j : BatchJob D) (js : list (BatchJob D)) (q : BatchQueue D)
  (it : BatchItem D).

(** [jobs.iter().enumerate().filter(|(_, j)| j.status == Queued)]. *)
Definition queued_slots js : list (nat * BatchJob D) :=
  filter (λ p : nat * BatchJob D, job_status p.2 = Queued) (imap pair js).

(** [queued_indices] ([.map(|(i, _)| i).collect()]). *)
Definition queued_indices js : list nat := map fst (queued_slots js).

(** [queued_indices.iter().map(|&i| jobs[i].clone())]: the job found at
    each queued index, i.e. the second components of [queued_slots]. *)
Definition queued_jobs js : list (BatchJob D) := map snd (queued_slots js).

(** [slice::sort_by(|a, b| a.resource_key.cmp(&b.resource_key))] is a
    stable sort; a stable sort's result is determined by the comparator,
    so it is modelled by a stable insertion sort: an element goes in front
    of the first element whose key is not strictly smaller than its own. *)
Fixpoint insert_by_resource_key j js : list (BatchJob D) :=
  match js with
  | [] => [j]
  | j' :: js' =>
      if String.ltb (resource_key j') (resource_key j)
      then j' :: insert_by_resource_key j js'
      else j :: j' :: js'
  end.

Fixpoint sort_by_resource_key js : list (BatchJob D) :=
  match js with
  | [] => []
  | j :: js' => insert_by_resource_key j (sort_by_resource_key js')
  end.

(** [job.reordered = true; job.reorder_note = Some(..)]. *)
Definition mark_reordered j : BatchJob D :=
  {| job_id := job_id j; resource_key := resource_key j;
     operation := operation j; overwrite_policy := overwrite_policy j;
     items := items j; job_status := job_status j; created_at := created_at j;
     started_at := started_at j; completed_at := completed_at j;
     reordered := true; reorder_note := Some reorder_note_text |}.

(** [for (slot_idx, job) in queued_indices.iter().zip(queued_jobs) {
       jobs[*slot_idx] = job; }] *)
Definition write_back (slots : list nat) (new_jobs : list (BatchJob D)) js
    : list (BatchJob D) :=
  fold_left (λ acc (p : nat * BatchJob D), <[p.1 := p.2]> acc)
    (zip slots new_jobs) js.

Definition reorder_queued_jobs js : list (BatchJob D) :=
  let queued_idx := queued_indices js in
  if decide (length queued_idx < 2) then js
  else
    let queued := queued_jobs js in
    let original_order := map job_id queued in
    let sorted := sort_by_resource_key queued in
    let new_order := map job_id sorted in
    if decide (original_order ≠ new_order)
    then write_back queued_idx (map mark_reordered sorted) js
    else js.

(** [iter_mut().find(|j| j.id == job_id)]: index and value of the first
    job with that id. *)
Definition find_job js (id : string) : option (nat * BatchJob D) :=
  list_find (λ j, job_id j = id) js.

Definition find_item (its : list (BatchItem D)) (id : string)
    : option (nat * BatchItem D) :=
  list_find (λ it, item_id it = id) its.

(** [enqueue]: always [Ok]. [uuid] is the value [Uuid::new_v4()] yields. *)
Definition enqueue (uuid now : string) j q : Result string * BatchQueue D :=
  let id := if decide (job_id j = "") then uuid else job_id j in
  let job :=
    {| job_id := id; resource_key := resource_key j; operation := operation j;
       overwrite_policy := overwrite_policy j; items := items j;
       job_status := Queued; created_at := now; started_at := started_at j;
       completed_at := completed_at j; reordered := reordered j;
       reorder_note := reorder_note j |} in
  (Ok id, {| jobs := reorder_queued_jobs (jobs q ++ [job]); eta := eta q |}).

(** [next_queued]. *)
Definition next_queued q : option (BatchJob D) :=
  snd <$> list_find (λ j, job_status j = Queued) (jobs q).

(** [mark_running]: no status check. *)
Definition mark_running (now : string) (id : string) q : Result unit * BatchQueue D :=
  match find_job (jobs q) id with
  | Some (i, j) =>
      let j' :=
        {| job_id := job_id j; resource_key := resource_key j;
           operation := operation j; overwrite_policy := overwrite_policy j;
           items := items j; job_status := Running; created_at := created_at j;
           started_at := Some now; completed_at := completed_at j;
           reordered := reordered j; reorder_note := reorder_note j |} in
      (Ok (), {| jobs := <[i := j']> (jobs q); eta := eta q |})
  | None => (Ok (), q)
  end.

(** Replaces the items of a job. *)
Definition set_items j (its : list (BatchItem D)) : BatchJob D :=
  {| job_id := job_id j; resource_key := resource_key j;
     operation := operation j; overwrite_policy := overwrite_policy j;
     items := its; job_status := job_status j; created_at := created_at j;
     started_at := started_at j; completed_at := completed_at j;
     reordered := reordered j; reorder_note := reorder_note j |}.

(** Replaces status and completion time of a job. *)
Definition set_status_completed_at j (st : BatchJobStatus)
    (c : option string) : BatchJob D :=
  {| job_id := job_id j; resource_key := resource_key j;
     operation := operation j; overwrite_policy := overwrite_policy j;
     items := items j; job_status := st; created_at := created_at j;
     started_at := started_at j; completed_at := c;
     reordered := reordered j; reorder_note := reorder_note j |}.

(** [item.status = status; item.error = error; item.duration_ms = duration_ms]. *)
Definition set_item_result it (st : BatchItemStatus) (err : option string)
    (dur : option N) : BatchItem D :=
  {| item_id := item_id it; data := data it; item_status := st;
     item_error := err; duration_ms := dur; size_bucket := size_bucket it |}.

(** [update_item]: no status check; records an ETA sample after the item
    update when [status == Completed && duration_ms.is_some()]. *)
Definition update_item (jid iid : string) (st : BatchItemStatus)
    (err : option string) (dur : option N) q : Result unit * BatchQueue D :=
  match find_job (jobs q) jid with
  | Some (i, j) =>
      match find_item (items j) iid with
      | Some (k, it) =>
          let should_record :=
            bool_decide (st = ItemCompleted) && bool_decide (is_Some dur) in
          let j' := set_items j (<[k := set_item_result it st err dur]> (items j)) in
          let jobs' := <[i := j']> (jobs q) in
          let eta' :=
            match should_record, dur with
            | true, Some ms =>
                record (eta q) (resource_key j) (operation j) (size_bucket it) ms
            | _, _ => eta q
            end in
          (Ok (), {| jobs := jobs'; eta := eta' |})
      | None => (Ok (), q)
      end
  | None => (Ok (), q)
  end.

(** [mark_completed]: [Ok(None)] when no job has the id. [Iterator::sum]
    over [u64] is the wrapping sum of a release build. *)
Definition mark_completed (now : string) (id : string) q
    : Result (option BatchCompletionSummary) * BatchQueue D :=
  match find_job (jobs q) id with
  | Some (i, j) =>
      let failed_n :=
        length (filter (λ it, item_status it = ItemFailed) (items j)) in
      let succeeded_n :=
        length (filter (λ it, item_status it = ItemCompleted) (items j)) in
      let skipped_n :=
        length (filter (λ it, item_status it = ItemCancelled ∨
                              item_status it = ItemSkipped) (items j)) in
      let st := if decide (0 < failed_n) then CompletedWithErrors else Completed in
      let j' := set_status_completed_at j st (Some now) in
      let total_ms := fold_left u64_add (omap duration_ms (items j)) 0%N in
      let processed := succeeded_n + failed_n in
      let avg := if decide (0 < processed) then (total_ms `div` N.of_nat processed)%N
                 else 0%N in
      (Ok (Some {| summary_job_id := job_id j'; summary_operation := operation j';
                   summary_resource_key := resource_key j';
                   total := length (items j'); succeeded := succeeded_n;
                   failed := failed_n; skipped := skipped_n;
                   total_duration_ms := total_ms; avg_duration_ms := avg |}),
       {| jobs := <[i := j']> (jobs q); eta := eta q |})
  | None => (Ok None, q)
  end.

(** [cancel_item]. *)
Definition cancel_item (jid iid : string) q : Result unit * BatchQueue D :=
  match find_job (jobs q) jid with
  | Some (i, j) =>
      match find_item (items j) iid with
      | Some (k, it) =>
          if decide (item_status it = ItemPending) then
            let it' := set_item_result it ItemCancelled (item_error it) (duration_ms it) in
            (Ok (), {| jobs := <[i := set_items j (<[k := it']> (items j))]> (jobs q);
                       eta := eta q |})
          else (Ok (), q)
      | None => (Ok (), q)
      end
  | None => (Ok (), q)
  end.

(** The [for item in &mut job.items] loop of [cancel_job]. *)
Definition cancel_pending (its : list (BatchItem D)) : list (BatchItem D) :=
  map (λ it, if decide (item_status it = ItemPending)
             then set_item_result it ItemCancelled (item_error it) (duration_ms it)
             else it) its.

(** [cancel_job]: [Ok(())] also when no job has the id. *)
Definition cancel_job (now : string) (id : string) q : Result unit * BatchQueue D :=
  match find_job (jobs q) id with
  | Some (i, j) =>
      let its := cancel_pending (items j) in
      let any_running := existsb (λ it, bool_decide (item_status it = ItemRunning)) its in
      let j1 := set_items j its in
      let j2 := if any_running then j1 else set_status_completed_at j1 Cancelled (Some now) in
      (Ok (), {| jobs := <[i := j2]> (jobs q); eta := eta q |})
  | None => (Ok (), q)
  end.

(** The [for item in &mut job.items] loop of [retry_failed]. *)
Definition reset_failed (its : list (BatchItem D)) : list (BatchItem D) :=
  map (λ it, if decide (item_status it = ItemFailed)
             then set_item_result it ItemPending None None
             else it) its.

(** [retry_failed]: [bail!] before any mutation when no item failed;
    [Ok(())] when no job has the id. *)
Definition retry_failed (id : string) q : Result unit * BatchQueue D :=
  match find_job (jobs q) id with
  | Some (i, j) =>
      let has_failed := existsb (λ it, bool_decide (item_status it = ItemFailed)) (items j) in
      if negb has_failed then (Err (NoFailedItems id), q)
      else
        let j' := set_status_completed_at (set_items j (reset_failed (items j))) Queued None in
        (Ok (), {| jobs := reorder_queued_jobs (<[i := j']> (jobs q)); eta := eta q |})
  | None => (Ok (), q)
  end.

(** [estimate_remaining_ms]. *)
Definition estimate_remaining_ms (id : string) q : option N :=
  '(_, j) ← find_job (jobs q) id;
  let remaining_buckets :=
    map size_bucket (filter (λ it, item_status it = ItemPending ∨
                                   item_status it = ItemRunning) (items j)) in
  if decide (remaining_buckets = []) then Some 0%N
  else estimate_remaining (eta q) (resource_key j) (operation j) remaining_buckets.

(** [get_job]. *)
Definition get_job (id : string) q : option (BatchJob D) :=
  snd <$> find_job (jobs q) id.

(** [has_running_job]. *)
Definition has_running_job q : bool :=
  existsb (λ j, bool_decide (job_status j = Running)) (jobs q).

(** [eta_sample_count]. *)
Definition eta_sample_count q (resource_key operation : string)
    (size_bucket : SizeBucket) : N :=
  sample_count (eta q) resource_key operation size_bucket.

(** [queued_count]. *)
Definition queued_count q : nat :=
  length (filter (λ j, job_status j = Queued) (jobs q)).
End Queue.

(** [BatchQueue::new()]. *)
Definition new_queue {D} : BatchQueue D := {| jobs := []; eta := ∅ |}.

(* ------------------------------------------------------------------ *)
(** ** executor.rs *)

(** [ItemResult] (types.rs). *)
Record ItemResult := {
  success : bool;
  output : option string;
  error : option string;
}.

(** The value of [handler.process(..).await]: [Ok(ItemResult)] or an
    [anyhow::Error], here already rendered by [format!("{:#}", e)]. *)
Inductive ProcessResult :=
  | ProcOk (r : ItemResult)
  | ProcErr (msg : string).

(** The [BatchItemHandler<D>] passed to the executor, together with the
    clock [Instant] reads around each call. Every answer is indexed by the
    position of the item in [job.items]: within one [process_batch_job]
    each of [should_skip], [process] and the timing is consulted at most
    once per position, so these functions can give any sequence of
    answers a stateful handler or a real clock could give. *)
Record Handler (D : Type) := {
  should_skip : nat → D → string → bool;
  process : nat → D → string → string → ProcessResult;
  (** [start.elapsed().as_millis() as u64] *)
  elapsed_ms : nat → N;
}.
Arguments should_skip {D} _ _ _ _.
Arguments process {D} _ _ _ _ _.
Arguments elapsed_ms {D} _ _.

(** The events emitted through [app_handle.emit]. *)
Inductive Event :=
  (** ["ai_batch:job_started"] *)
  | JobStartedEvent (job_id operation resource_key : string) (total_items : nat)
  (** ["ai_batch:item_progress"] *)
  | ItemProgressEvent (job_id item_id : string) (status : BatchItemStatus)
      (completed total : nat) (error : option string) (duration_ms : option N)
      (eta_remaining_ms : option N)
  (** ["ai_batch:job_completed"] *)
  | JobCompletedEvent (summary : BatchCompletionSummary).

(** [let (status, error) = match result { .. }]. *)
Definition item_outcome (r : ProcessResult) : BatchItemStatus * option string :=
  match r with
  | ProcOk ir =>
      if success ir then (ItemCompleted, None)
      else (ItemFailed, match error ir with
                        | Some e => Some e
                        | None => Some "Unknown error"
                        end)
  | ProcErr msg => (ItemFailed, Some msg)
  end.

(** What the cancellation check at the top of the item loop decides:
    [continue], [break], or go on with the item. *)
Inductive Flow := FlowContinue | FlowBreak | FlowProceed.

Section Executor.
Context {D : Type}.
Implicit Types (q : BatchQueue D) (job : BatchJob D) (h : Handler D).

(** [if let Some(current_job) = queue.get_job(&job_id) { .. }]. *)
Definition cancel_check (job_id : string) (item : BatchItem D) q : Flow :=
  match get_job job_id q with
  | Some current_job =>
      match find_item (items current_job) (item_id item) with
      | Some (_, ci) =>
          if decide (item_status ci = ItemCancelled) then FlowContinue
          else if decide (job_status current_job = Cancelled) then FlowBreak
          else FlowProceed
      | None =>
          if decide (job_status current_job = Cancelled) then FlowBreak
          else FlowProceed
      end
  | None => FlowProceed
  end.

(** The [for item in &job.items] loop of [process_batch_job]; [k] is the
    position of [item] in [job.items], [completed_count] the counter and
    [evs] the events emitted so far. [job] is the snapshot the loop
    iterates over; the queue is re-read through [get_job]. *)
Fixpoint process_items h job (total : nat) (k : nat) (its : list (BatchItem D))
    q (evs : list Event) (completed_count : nat) : BatchQueue D * list Event :=
  match its with
  | [] => (q, evs)
  | item :: its' =>
      let jid := job_id job in
      match cancel_check jid item q with
      | FlowContinue => process_items h job total (S k) its' q evs (S completed_count)
      | FlowBreak => (q, evs)
      | FlowProceed =>
          if bool_decide (overwrite_policy job = Skip) &&
             should_skip h k (data item) (operation job) then
            let q1 := snd (update_item jid (item_id item) ItemSkipped
                             (Some "Skipped: already has data") None q) in
            let c := S completed_count in
            let eta_ms := estimate_remaining_ms jid q1 in
            process_items h job total (S k) its' q1
              (evs ++ [ItemProgressEvent jid (item_id item) ItemSkipped c total
                         (Some "Skipped") None eta_ms]) c
          else
            let q1 := snd (update_item jid (item_id item) ItemRunning None None q) in
            let result := process h k (data item) (resource_key job) (operation job) in
            let dur := elapsed_ms h k in
            let '(status, err) := item_outcome result in
            let q2 := snd (update_item jid (item_id item) status err (Some dur) q1) in
            let c := S completed_count in
            let eta_ms := estimate_remaining_ms jid q2 in
            process_items h job total (S k) its' q2
              (evs ++ [ItemProgressEvent jid (item_id item) status c total err
                         (Some dur) eta_ms]) c
      end
  end.

(** [process_batch_job]; [t_start] and [t_end] are the clock readings of
    [mark_running] and [mark_completed]. *)
Definition process_batch_job h (t_start t_end : string) q job
    : BatchQueue D * list Event :=
  let jid := job_id job in
  match mark_running t_start jid q with
  | (Err _, q1) => (q1, [])
  | (Ok _, q1) =>
      let total := length (items job) in
      let e0 := JobStartedEvent jid (operation job) (resource_key job)
                  (length (items job)) in
      let '(q2, evs) := process_items h job total 0 (items job) q1 [e0] 0 in
      match mark_completed t_end jid q2 with
      | (Ok (Some summary), q3) => (q3, evs ++ [JobCompletedEvent summary])
      | (Ok None, q3) => (q3, evs)
      | (Err _, q3) => (q3, evs)
      end
  end.

(** One iteration of [run_loop] after the sleep, with the queue managed
    by Tauri ([try_state] returns it). *)
Definition run_loop_step h (t_start t_end : string) q : BatchQueue D * list Event :=
  if has_running_job q then (q, [])
  else match next_queued q with
       | Some job => process_batch_job h t_start t_end q job
       | None => (q, [])
       end.
End Executor.


(* ------------------------------------------------------------------ *)
(** ** Auxiliary definitions for the proofs *)

Section Aux.
Context {D : Type}.
Implicit Types (j : BatchJob D) (js : list (BatchJob D)).

(** The write-back loop of [reorder_queued_jobs] as a walk over the job
    list: the k-th queued slot receives the k-th job of [new_jobs]
    ([write_back_fill] proves the two agree). *)
Fixpoint fill_queued js (new_jobs : list (BatchJob D)) : list (BatchJob D) :=
  match js with
  | [] => []
  | j :: js' =>
      if decide (job_status j = Queued) then
        match new_jobs with
        | n :: new' => n :: fill_queued js' new'
        | [] => j :: fill_queued js' []
        end
      else j :: fill_queued js' new_jobs
  end.

(** The state [process_batch_job] leaves an item in, read off the loop
    body: a Cancelled item is left alone, a skipped one is marked Skipped,
    any other is set to the outcome of its handler call. *)
Definition expected_item (h : Handler D) j (k : nat) (it : BatchItem D) : BatchItem D :=
  if decide (item_status it = ItemCancelled) then it
  else if bool_decide (overwrite_policy j = Skip) && should_skip h k (data it) (operation j)
  then set_item_result it ItemSkipped (Some "Skipped: already has data") None
  else let '(st, err) := item_outcome (process h k (data it) (resource_key j) (operation j)) in
       set_item_result it st err (Some (elapsed_ms h k)).

(** The job id, item id, status and duration an [item_progress] event
    reports; [None] for the other events. *)
Definition progress_of (e : Event) : option (string * string * BatchItemStatus * option N) :=
  match e with
  | ItemProgressEvent jid iid st _ _ _ dur _ => Some (jid, iid, st, dur)
  | _ => None
  end.

(** The same fields read off an item after the loop. *)
Definition item_report (jid : string) (it : BatchItem D)
    : option (string * string * BatchItemStatus * option N) :=
  Some (jid, item_id it, item_status it, duration_ms it).

(** The order the spec's section 4.2 prescribes for the queued sub-list,
    restricted to the fields [BatchJob] has (it has no priority): resource
    key byte-wise ascending, then creation time ascending. *)
Definition spec_queue_order_le j1 j2 : bool :=
  String.ltb (resource_key j1) (resource_key j2) ||
  (bool_decide (resource_key j1 = resource_key j2) &&
   String.leb (created_at j1) (created_at j2)).
End Aux.

(* ------------------------------------------------------------------ *)
(** ** Test data, following [make_items] / [make_job] of queue.rs's tests *)

Definition make_item (i : nat) : BatchItem string :=
  {| item_id := "item-" +:+ pretty i; data := "data-" +:+ pretty i;
     item_status := ItemPending; item_error := None; duration_ms := None;
     size_bucket := Medium |}.

Definition make_job (id resource op : string) (n : nat) : BatchJob string :=
  {| job_id := id; resource_key := resource; operation := op;
     overwrite_policy := Skip; items := map make_item (seq 0 n);
     job_status := Queued; created_at := ""; started_at := None;
     completed_at := None; reordered := false; reorder_note := None |}.

(** Threads a queue through a sequence of calls, dropping their results. *)
Definition run {D} (q : BatchQueue D) (ops : list (BatchQueue D → BatchQueue D))
    : BatchQueue D := fold_left (λ q f, f q) ops q.


(** Clock readings used by the scenarios, in [to_rfc3339] form. *)
Definition T1 : string := "2026-01-01T00:00:01+00:00".
Definition T2 : string := "2026-01-01T00:00:02+00:00".
Definition T3 : string := "2026-01-01T00:00:03+00:00".
Definition T4 : string := "2026-01-01T00:00:04+00:00".
Definition T5 : string := "2026-01-01T00:00:05+00:00".
Definition T6 : string := "2026-01-01T00:00:06+00:00".
Definition T7 : string := "2026-01-01T00:00:07+00:00".

(** A run of the queue: job [j1] (resource [c]) and job [j2] (resource [b])
    each run and fail, [j1] is retried, [j3] (resource [b]) is enqueued,
    then [j2] is retried. *)
Definition retry_after_enqueue_trace : BatchQueue string :=
  run new_queue
    [λ q, snd (enqueue "u1" T1 (make_job "j1" "c" "tag" 1) q);
     λ q, snd (mark_running T2 "j1" q);
     λ q, snd (update_item "j1" "item-0" ItemFailed (Some "err") (Some 10%N) q);
     λ q, snd (mark_completed T3 "j1" q);
     λ q, snd (enqueue "u2" T4 (make_job "j2" "b" "tag" 1) q);
     λ q, snd (mark_running T5 "j2" q);
     λ q, snd (update_item "j2" "item-0" ItemFailed (Some "err") (Some 10%N) q);
     λ q, snd (mark_completed T6 "j2" q);
     λ q, snd (retry_failed "j1" q);
     λ q, snd (enqueue "u3" T7 (make_job "j3" "b" "tag" 1) q);
     λ q, snd (retry_failed "j2" q)].


(** A job list with a running job between two queued ones. *)
Definition running_between_jobs : list (BatchJob string) :=
  [make_job "a" "model-b" "tag" 1;
   set_status_completed_at (make_job "r" "model-z" "tag" 1) Running None;
   make_job "c" "model-a" "tag" 1].


(** Scenario 3 of the spec (the [test_eta_integration] test): three Medium
    items, item 0 completed in 1000 ms. *)
Definition eta_scenario : BatchQueue string :=
  run new_queue
    [λ q, snd (enqueue "u1" T1 (make_job "" "model-a" "tag" 3) q);
     λ q, snd (mark_running T2 "u1" q);
     λ q, snd (update_item "u1" "item-0" ItemCompleted None (Some 1000%N) q)].

(** Scenario 4 of the spec, up to (excluding) [mark_completed]: items
    completed in 1000 ms, failed after 5000 ms, completed in 1000 ms. *)
Definition summary_scenario : BatchQueue string :=
  run new_queue
    [λ q, snd (enqueue "u1" T1 (make_job "" "model-a" "tag" 3) q);
     λ q, snd (mark_running T2 "u1" q);
     λ q, snd (update_item "u1" "item-0" ItemCompleted None (Some 1000%N) q);
     λ q, snd (update_item "u1" "item-1" ItemFailed (Some "timeout") (Some 5000%N) q);
     λ q, snd (update_item "u1" "item-2" ItemCompleted None (Some 1000%N) q)].


(** Scenario 4 of the spec after [mark_completed]. *)
Definition completed_scenario : BatchQueue string :=
  snd (mark_completed T3 "u1" summary_scenario).




(** A started job with three Pending Medium items. *)
Definition started_queue : BatchQueue string :=
  run new_queue
    [λ q, snd (enqueue "u1" T1 (make_job "" "model-a" "tag" 3) q);
     λ q, snd (mark_running T2 "u1" q)].

Definition started_job : BatchJob string :=
  default (make_job "" "" "" 0) (get_job "u1" started_queue).

(** The same job after [cancel_job]: every item Cancelled. *)
Definition cancelled_queue : BatchQueue string := snd (cancel_job T3 "u1" started_queue).

Definition cancelled_job : BatchJob string :=
  default (make_job "" "" "" 0) (get_job "u1" cancelled_queue).

(** A handler for the executor scenarios: never skips, fails the item at
    position 1 (without a message) and succeeds on every other one; the
    item at position [k] takes [100 * (k + 1)] ms. *)
Definition test_handler : Handler string :=
  {| should_skip := λ _ _ _, false;
     process := λ k _ _ _,
       if decide (k = 1) then ProcOk {| success := false; output := None; error := None |}
       else ProcOk {| success := true; output := None; error := None |};
     elapsed_ms := λ k, (100 * N.of_nat (S k))%N |}.

(** A queue with one enqueued three-item job [u1]. *)
Definition one_job_queue : BatchQueue string :=
  snd (enqueue "u1" T1 (make_job "" "model-a" "tag" 3) new_queue).

(** A queue where a completed job and a later queued job carry the same
    id [x]. *)
Definition shadowed_id_queue : BatchQueue string :=
  run new_queue
    [λ q, snd (enqueue "u1" T1 (make_job "x" "model-a" "tag" 1) q);
     λ q, snd (mark_running T2 "x" q);
     λ q, snd (update_item "x" "item-0" ItemCompleted None (Some 10%N) q);
     λ q, snd (mark_completed T3 "x" q);
     λ q, snd (enqueue "u2" T4 (make_job "x" "model-b" "tag" 1) q)].

(* ------------------------------------------------------------------ *)
(** * Proofs *)

(** ** The queued sub-list and the write-back *)

Section ReorderFacts.
Context {D : Type}.
Implicit Types (j : BatchJob D) (js : list (BatchJob D)).

Lemma filter_fmap_invariant {A} (P : A → Prop) `{∀ x, Decision (P x)}
    (f : A → A) (l : list A) :
  (∀ x, P (f x) ↔ P x) → filter P (f <$> l) = f <$> filter P l.
Proof.
  intros HP. induction l as [|x l IH]; [done|]. csimpl.
  rewrite !filter_cons. destruct (decide (P x)) as [Hx|Hx].
  - rewrite decide_True by (by apply HP). csimpl. by rewrite IH.
  - rewrite decide_False by (by rewrite HP). done.
Qed.

Lemma queued_slots_cons j js :
  queued_slots (j :: js) =
    (if decide (job_status j = Queued) then [(0, j)] else []) ++
    (prod_map S id <$> queued_slots js).
Proof.
  unfold queued_slots. rewrite imap_cons, filter_cons.
  assert (imap (pair ∘ S) js = prod_map S id <$> imap pair js) as ->.
  { rewrite fmap_imap. apply imap_ext. done. }
  rewrite (filter_fmap_invariant _ (prod_map S id)) by done.
  simpl. by destruct (decide _).
Qed.

Lemma queued_jobs_cons j js :
  queued_jobs (j :: js) =
    if decide (job_status j = Queued) then j :: queued_jobs js else queued_jobs js.
Proof.
  unfold queued_jobs. rewrite queued_slots_cons.
  destruct (decide _); simpl; rewrite <- list_fmap_compose; done.
Qed.

Lemma queued_indices_cons j js :
  queued_indices (j :: js) =
    if decide (job_status j = Queued) then 0 :: (S <$> queued_indices js)
    else S <$> queued_indices js.
Proof.
  unfold queued_indices. rewrite queued_slots_cons.
  destruct (decide _); simpl; rewrite <- !list_fmap_compose; done.
Qed.

Lemma length_queued_indices js :
  length (queued_indices js) = length (queued_jobs js).
Proof. unfold queued_indices, queued_jobs. by rewrite !length_map. Qed.

Lemma write_back_shift (idx : list nat) (new : list (BatchJob D)) x js :
  write_back (S <$> idx) new (x :: js) = x :: write_back idx new js.
Proof.
  unfold write_back. revert new js.
  induction idx as [|i idx IH]; intros [|n new] js; simpl; auto.
Qed.

Lemma write_back_fill js (new : list (BatchJob D)) :
  length new = length (queued_jobs js) →
  write_back (queued_indices js) new js = fill_queued js new.
Proof.
  revert new. induction js as [|j js IH]; intros new Hlen; [done|].
  rewrite queued_indices_cons. rewrite queued_jobs_cons in Hlen. simpl.
  destruct (decide (job_status j = Queued)).
  - destruct new as [|n new]; simpl in Hlen; [lia|].
    unfold write_back at 1. simpl. fold (write_back (S <$> queued_indices js) new (n :: js)).
    rewrite write_back_shift. f_equal. apply IH. lia.
  - rewrite write_back_shift. f_equal. by apply IH.
Qed.
End ReorderFacts.

(** ** Byte-wise string order *)

Lemma str_compare_refl (s : string) : String.compare s s = Eq.
Proof.
  induction s as [|a s IH]; [done|]. simpl.
  unfold Ascii.compare. by rewrite N.compare_refl.
Qed.

Lemma str_ltb_irrefl (s : string) : String.ltb s s = false.
Proof. unfold String.ltb. by rewrite str_compare_refl. Qed.

Lemma str_ltb_leb (a b : string) : String.ltb a b = negb (String.leb b a).
Proof.
  unfold String.ltb, String.leb. rewrite (String.compare_antisym a b).
  by destruct (String.compare b a).
Qed.

Lemma str_leb_trans (a b c : string) :
  String.leb a b = true → String.leb b c = true → String.leb a c = true.
Proof.
  intros H1 H2. apply Is_true_true_1. change (String.le a c).
  trans b; by apply Is_true_true_2.
Qed.

Lemma str_leb_total_ltb (a b : string) :
  String.ltb a b = false → String.leb b a = true.
Proof. rewrite str_ltb_leb. by destruct (String.leb b a). Qed.

Lemma str_ltb_leb_true (a b : string) :
  String.ltb a b = true → String.leb a b = true.
Proof.
  intros H. destruct (String.leb_total a b) as [|Hba]; [done|].
  rewrite str_ltb_leb, Hba in H. done.
Qed.

(** ** The stable sort by resource key *)

Section SortFacts.
Context {D : Type}.
Implicit Types (j : BatchJob D) (js : list (BatchJob D)).

Definition key_le j1 j2 : Prop := String.leb (resource_key j1) (resource_key j2) = true.

Lemma insert_by_resource_key_perm j js :
  Permutation (insert_by_resource_key j js) (j :: js).
Proof.
  induction js as [|j' js IH]; simpl; [done|].
  destruct (String.ltb _ _); [|done].
  rewrite IH. apply perm_swap.
Qed.

Lemma sort_by_resource_key_perm js : Permutation (sort_by_resource_key js) js.
Proof.
  induction js as [|j js IH]; simpl; [done|].
  rewrite insert_by_resource_key_perm, IH. done.
Qed.

Lemma length_sort_by_resource_key js : length (sort_by_resource_key js) = length js.
Proof. apply Permutation_length, sort_by_resource_key_perm. Qed.

Lemma insert_by_resource_key_hd j0 j js :
  key_le j0 j → HdRel key_le j0 js → HdRel key_le j0 (insert_by_resource_key j js).
Proof.
  intros Hj Hhd. destruct js as [|j' js]; simpl; [by constructor|].
  destruct (String.ltb _ _); constructor; [by inversion Hhd|done].
Qed.

Lemma insert_by_resource_key_sorted j js :
  Sorted key_le js → Sorted key_le (insert_by_resource_key j js).
Proof.
  induction 1 as [|j' js Hs IH Hhd]; simpl; [by repeat constructor|].
  destruct (String.ltb (resource_key j') (resource_key j)) eqn:Hlt.
  - constructor; [done|]. apply insert_by_resource_key_hd; [|done].
    by apply str_ltb_leb_true.
  - constructor; [by constructor|]. constructor.
    by apply str_leb_total_ltb.
Qed.

Lemma sort_by_resource_key_sorted js : Sorted key_le (sort_by_resource_key js).
Proof.
  induction js; simpl; [constructor|]. by apply insert_by_resource_key_sorted.
Qed.

(** Sorting a list that is already in key order changes nothing. *)
Lemma sort_by_resource_key_id js : Sorted key_le js → sort_by_resource_key js = js.
Proof.
  induction 1 as [|j js Hs IH Hhd]; simpl; [done|]. rewrite IH.
  destruct Hhd as [|j' js' Hle]; simpl; [done|].
  unfold key_le in Hle. by rewrite str_ltb_leb, Hle.
Qed.

(** Stability: jobs with one resource key keep their relative order. *)
Lemma insert_by_resource_key_filter (k : string) j js :
  filter (λ j', resource_key j' = k) (insert_by_resource_key j js) =
  filter (λ j', resource_key j' = k) (j :: js).
Proof.
  induction js as [|j' js IH]; simpl; [done|].
  destruct (String.ltb (resource_key j') (resource_key j)) eqn:Hlt; [|done].
  rewrite !filter_cons, IH, filter_cons.
  destruct (decide (resource_key j' = k)) as [Hk'|Hk'];
    destruct (decide (resource_key j = k)) as [Hk|Hk]; try done.
  subst k. rewrite Hk, str_ltb_irrefl in Hlt. done.
Qed.

Lemma sort_by_resource_key_stable (k : string) js :
  filter (λ j, resource_key j = k) (sort_by_resource_key js) =
  filter (λ j, resource_key j = k) js.
Proof.
  induction js as [|j js IH]; simpl; [done|].
  rewrite insert_by_resource_key_filter, !filter_cons, IH. done.
Qed.

(** A permutation that keeps the sequence of distinct ids is the identity. *)
Lemma perm_same_ids (l l' : list (BatchJob D)) :
  Permutation l l' → map job_id l = map job_id l' → NoDup (map job_id l) → l = l'.
Proof.
  revert l'. induction l as [|x l IH]; intros l' Hp Hids Hnd.
  - by apply Permutation_nil in Hp.
  - destruct l' as [|y l']; [by apply Permutation_length in Hp|].
    simpl in Hids. injection Hids as Hxy Hids.
    inversion Hnd as [|? ? Hnotin Hnd']; subst.
    assert (In x (y :: l')) as [<-|Hin].
    { rewrite <- Hp. by left. }
    + f_equal. apply IH; [|done|done]. by apply Permutation_cons_inv in Hp.
    + exfalso. apply Hnotin. rewrite Hids, Hxy. apply list_elem_of_In.
      apply in_map_iff. by exists x.
Qed.
End SortFacts.

(** ** [reorder_queued_jobs] *)

Section ReorderSpec.
Context {D : Type}.
Implicit Types (j : BatchJob D) (js : list (BatchJob D)).

Lemma length_fill_queued js (new : list (BatchJob D)) :
  length (fill_queued js new) = length js.
Proof.
  revert new. induction js as [|j js IH]; intros new; simpl; [done|].
  destruct (decide _); [destruct new|]; simpl; by rewrite IH.
Qed.

Lemma fill_queued_non_queued js (new : list (BatchJob D)) i j :
  js !! i = Some j → job_status j ≠ Queued → fill_queued js new !! i = Some j.
Proof.
  revert new i. induction js as [|j0 js IH]; intros new i Hi Hst; [done|].
  simpl. destruct i as [|i]; simpl in Hi.
  - injection Hi as <-. by rewrite decide_False.
  - destruct (decide _); [destruct new|]; simpl; by apply IH.
Qed.

Lemma fill_queued_status js (new : list (BatchJob D)) i :
  Forall (λ n, job_status n = Queued) new →
  job_status <$> fill_queued js new !! i = job_status <$> js !! i.
Proof.
  revert new i. induction js as [|j0 js IH]; intros new i Hnew; [done|].
  simpl. destruct (decide (job_status j0 = Queued)) as [Hq|Hq].
  - destruct new as [|n new].
    + destruct i; simpl; [done|]. by apply IH.
    + apply Forall_cons in Hnew as [Hn Hnew'].
      destruct i; simpl; [cbn; by rewrite Hn, Hq|]. by apply IH.
  - destruct i; simpl; [done|]. by apply IH.
Qed.

Lemma queued_jobs_fill js (new : list (BatchJob D)) :
  Forall (λ n, job_status n = Queued) new →
  length new = length (queued_jobs js) →
  queued_jobs (fill_queued js new) = new.
Proof.
  revert new. induction js as [|j0 js IH]; intros new Hnew Hlen.
  - destruct new; [done|]. simpl in Hlen. done.
  - rewrite queued_jobs_cons in Hlen. simpl.
    destruct (decide (job_status j0 = Queued)) as [Hq|Hq].
    + destruct new as [|n new]; simpl in Hlen; [lia|].
      inversion Hnew as [|? ? Hn Hnew']; subst.
      rewrite queued_jobs_cons, decide_True by done. f_equal.
      apply IH; [done|lia].
    + rewrite queued_jobs_cons, decide_False by done. by apply IH.
Qed.

Lemma mark_reordered_status j : job_status (mark_reordered j) = job_status j.
Proof. done. Qed.
Lemma mark_reordered_key j : resource_key (mark_reordered j) = resource_key j.
Proof. done. Qed.
Lemma mark_reordered_id j : job_id (mark_reordered j) = job_id j.
Proof. done. Qed.

Lemma queued_jobs_status js : Forall (λ n, job_status n = Queued) (queued_jobs js).
Proof.
  induction js as [|j js IH]; [constructor|].
  rewrite queued_jobs_cons. destruct (decide _); [by constructor|done].
Qed.

Lemma marked_sorted_status js :
  Forall (λ n, job_status n = Queued)
    (map mark_reordered (sort_by_resource_key (queued_jobs js))).
Proof.
  apply Forall_map. eapply Permutation_Forall.
  - symmetry. apply sort_by_resource_key_perm.
  - apply queued_jobs_status.
Qed.

(** [reorder_queued_jobs], with the write-back loop as [fill_queued]. *)
Lemma reorder_queued_jobs_eq js :
  reorder_queued_jobs js =
    if decide (length (queued_jobs js) < 2) then js
    else if decide (map job_id (queued_jobs js) ≠
                    map job_id (sort_by_resource_key (queued_jobs js)))
    then fill_queued js (map mark_reordered (sort_by_resource_key (queued_jobs js)))
    else js.
Proof.
  unfold reorder_queued_jobs. rewrite length_queued_indices.
  destruct (decide _); [done|]. destruct (decide _); [|done].
  apply write_back_fill. by rewrite length_map, length_sort_by_resource_key.
Qed.
End ReorderSpec.

Section ReorderTheorems.
Context {D : Type}.
Implicit Types (j : BatchJob D) (js : list (BatchJob D)).

Lemma sorted_map_mark_reordered (l : list (BatchJob D)) :
  Sorted key_le l → Sorted key_le (map mark_reordered l).
Proof.
  induction 1 as [|j l Hs IH Hhd]; simpl; constructor; [done|].
  destruct Hhd; simpl; by constructor.
Qed.

Lemma reorder_queued_jobs_cases js :
  reorder_queued_jobs js = js ∨
  (2 ≤ length (queued_jobs js) ∧
   map job_id (queued_jobs js) ≠ map job_id (sort_by_resource_key (queued_jobs js)) ∧
   reorder_queued_jobs js =
     fill_queued js (map mark_reordered (sort_by_resource_key (queued_jobs js)))).
Proof.
  rewrite reorder_queued_jobs_eq.
  destruct (decide (length _ < 2)); [by left|].
  destruct (decide _); [right; split_and!; [lia|done|done]|by left].
Qed.

Lemma queued_jobs_reordered js :
  2 ≤ length (queued_jobs js) →
  queued_jobs (fill_queued js (map mark_reordered (sort_by_resource_key (queued_jobs js)))) =
  map mark_reordered (sort_by_resource_key (queued_jobs js)).
Proof.
  intros _. apply queued_jobs_fill; [apply marked_sorted_status|].
  by rewrite length_map, length_sort_by_resource_key.
Qed.

Lemma sort_by_resource_key_short (l : list (BatchJob D)) :
  length l < 2 → sort_by_resource_key l = l.
Proof. destruct l as [|x [|y l]]; simpl; [done|done|lia]. Qed.

Lemma filter_key_mark_reordered_ids (k : string) (l : list (BatchJob D)) :
  map job_id (filter (λ j, resource_key j = k) (map mark_reordered l)) =
  map job_id (filter (λ j, resource_key j = k) l).
Proof.
  induction l as [|j l IH]; [done|]. simpl.
  destruct (decide (resource_key j = k)) as [Hk|Hk].
  - rewrite !filter_cons_True by done. simpl. by rewrite IH.
  - rewrite !filter_cons_False by done. exact IH.
Qed.

Lemma reorder_queued_jobs_same_ids js :
  map job_id (sort_by_resource_key (queued_jobs js)) = map job_id (queued_jobs js) →
  reorder_queued_jobs js = js.
Proof.
  intros Hids. rewrite reorder_queued_jobs_eq.
  destruct (decide _); [done|]. destruct (decide _) as [Hne|]; [|done].
  by exfalso.
Qed.

Lemma reorder_queued_jobs_new_ids js :
  map job_id (sort_by_resource_key (queued_jobs js)) ≠ map job_id (queued_jobs js) →
  queued_jobs (reorder_queued_jobs js) =
    map mark_reordered (sort_by_resource_key (queued_jobs js)).
Proof.
  intros Hids. rewrite reorder_queued_jobs_eq.
  destruct (decide (length (queued_jobs js) < 2)) as [Hl|Hl].
  - exfalso. apply Hids. by rewrite sort_by_resource_key_short.
  - rewrite decide_True by congruence. apply queued_jobs_reordered. lia.
Qed.

(** C1 (amended). The reorder pass keeps every non-queued job in its slot
    and keeps the set of queued slots. It sorts the queued sub-list by
    resource key alone with a stable sort (no priority and no creation
    time is consulted) and writes it back, each job marked as reordered,
    exactly when the sequence of ids changes; otherwise the list is left
    as it is (so with repeated ids an unsorted sub-list can stay). In
    every case the jobs of one resource key keep their relative order,
    and when the queued jobs' ids are distinct the queued sub-list
    afterwards is, id by id, the stable sort, hence in byte-wise key
    order. *)
Theorem reorder_queued_jobs_stable_by_resource_key js :
  length (reorder_queued_jobs js) = length js ∧
  (∀ i j, js !! i = Some j → job_status j ≠ Queued →
          reorder_queued_jobs js !! i = Some j) ∧
  (∀ i, job_status <$> reorder_queued_jobs js !! i = job_status <$> js !! i) ∧
  (map job_id (sort_by_resource_key (queued_jobs js)) = map job_id (queued_jobs js) →
   reorder_queued_jobs js = js) ∧
  (map job_id (sort_by_resource_key (queued_jobs js)) ≠ map job_id (queued_jobs js) →
   queued_jobs (reorder_queued_jobs js) =
     map mark_reordered (sort_by_resource_key (queued_jobs js))) ∧
  (∀ k, filter (λ j, resource_key j = k) (sort_by_resource_key (queued_jobs js)) =
        filter (λ j, resource_key j = k) (queued_jobs js)) ∧
  (∀ k, map job_id (filter (λ j, resource_key j = k)
                      (queued_jobs (reorder_queued_jobs js))) =
        map job_id (filter (λ j, resource_key j = k) (queued_jobs js))) ∧
  (NoDup (map job_id (queued_jobs js)) →
   map (λ j, (job_id j, resource_key j)) (queued_jobs (reorder_queued_jobs js)) =
   map (λ j, (job_id j, resource_key j)) (sort_by_resource_key (queued_jobs js)) ∧
   Sorted key_le (queued_jobs (reorder_queued_jobs js))).
Proof.
  split_and!.
  - destruct (reorder_queued_jobs_cases js) as [->|(_ & _ & ->)]; [done|].
    apply length_fill_queued.
  - intros i j Hi Hst.
    destruct (reorder_queued_jobs_cases js) as [->|(_ & _ & ->)]; [done|].
    by apply fill_queued_non_queued.
  - intros i.
    destruct (reorder_queued_jobs_cases js) as [->|(_ & _ & ->)]; [done|].
    apply fill_queued_status, marked_sorted_status.
  - apply reorder_queued_jobs_same_ids.
  - apply reorder_queued_jobs_new_ids.
  - intros k. apply sort_by_resource_key_stable.
  - intros k.
    destruct (decide (map job_id (sort_by_resource_key (queued_jobs js)) =
                      map job_id (queued_jobs js))) as [Heq|Hne].
    + by rewrite reorder_queued_jobs_same_ids.
    + rewrite reorder_queued_jobs_new_ids by done.
      by rewrite filter_key_mark_reordered_ids, sort_by_resource_key_stable.
  - intros Hnd. rewrite reorder_queued_jobs_eq.
    assert (sort_by_resource_key (queued_jobs js) = queued_jobs js →
            map (λ j, (job_id j, resource_key j)) (queued_jobs js) =
            map (λ j, (job_id j, resource_key j)) (sort_by_resource_key (queued_jobs js)) ∧
            Sorted key_le (queued_jobs js)) as Hsame.
    { intros Hid. rewrite Hid. split; [done|].
      rewrite <- Hid. apply sort_by_resource_key_sorted. }
    destruct (decide (length (queued_jobs js) < 2)) as [Hl|Hl].
    + apply Hsame.
      destruct (queued_jobs js) as [|x [|y l]]; simpl in Hl; [done|done|lia].
    + destruct (decide (map job_id (queued_jobs js) ≠ _)) as [Hne|Heq].
      * rewrite queued_jobs_reordered by lia. split.
        -- by rewrite map_map.
        -- apply sorted_map_mark_reordered, sort_by_resource_key_sorted.
      * apply Hsame. symmetry. apply perm_same_ids; [..|done].
        -- symmetry. apply sort_by_resource_key_perm.
        -- destruct (decide (map job_id (queued_jobs js) =
                             map job_id (sort_by_resource_key (queued_jobs js))));
             [done|by exfalso].
Qed.

(** C2. The reorder pass is idempotent. *)
Theorem reorder_queued_jobs_idempotent js :
  reorder_queued_jobs (reorder_queued_jobs js) = reorder_queued_jobs js.
Proof.
  destruct (reorder_queued_jobs_cases js) as [Hr|(Hlen & _ & Hr)].
  - by rewrite Hr, Hr.
  - rewrite Hr. rewrite (reorder_queued_jobs_eq (fill_queued _ _)).
    rewrite queued_jobs_reordered by done.
    rewrite (sort_by_resource_key_id (map mark_reordered _))
      by apply sorted_map_mark_reordered, sort_by_resource_key_sorted.
    destruct (decide _); [done|]. destruct (decide _) as [Hne|]; [|done].
    by exfalso.
Qed.
End ReorderTheorems.

(** Witness of C1: the theorem applied to a list with a running job. *)
Lemma reorder_queued_jobs_stable_by_resource_key_witness :
  NoDup (map job_id (queued_jobs running_between_jobs)) ∧
  reorder_queued_jobs running_between_jobs !! 1 = running_between_jobs !! 1 ∧
  Sorted key_le (queued_jobs (reorder_queued_jobs running_between_jobs)).
Proof.
  assert (NoDup (map job_id (queued_jobs running_between_jobs))) as Hnd.
  { apply (bool_decide_eq_true_1 _). vm_compute. reflexivity. }
  destruct (reorder_queued_jobs_stable_by_resource_key running_between_jobs)
    as (_ & Hkeep & _ & _ & _ & _ & _ & Hsorted).
  split; [exact Hnd|]. split.
  - apply (Hkeep 1 (set_status_completed_at (make_job "r" "model-z" "tag" 1) Running None)).
    + reflexivity.
    + discriminate.
  - exact (proj2 (Hsorted Hnd)).
Defined.

(** C1 (counterexample). On a reachable queue, after a [retry_failed], the
    queued sub-list is not in (resource key, creation time) order: job
    [j3] (resource [b], created at [T7]) precedes job [j2] (resource [b],
    created at [T4]). *)
Lemma retry_after_enqueue_not_fifo :
  ¬ Sorted (λ a b, spec_queue_order_le a b = true)
      (queued_jobs (jobs retry_after_enqueue_trace)).
Proof.
  intros H. remember (queued_jobs (jobs retry_after_enqueue_trace)) as l eqn:E.
  vm_compute in E. subst l.
  apply Sorted_inv in H as [_ H]. apply HdRel_inv in H.
  vm_compute in H. discriminate.
Qed.

(** ** ETA estimation *)

Lemma fold_u64_add (l : list N) (a : N) :
  (a < u64_modulus)%N →
  fold_left u64_add l a = ((a + sum_N l) `mod` u64_modulus)%N.
Proof.
  unfold u64_add. assert (u64_modulus ≠ 0)%N as Hm by done.
  revert a. induction l as [|x l IH]; intros a Ha; simpl.
  - rewrite N.add_0_r. symmetry. by apply N.mod_small.
  - rewrite IH by (by apply N.mod_lt).
    rewrite N.Div0.add_mod_idemp_l. f_equal. lia.
Qed.

Lemma estimate_remaining_step_one (eta : EtaTracker) (r op : string)
    (t : N) (h : bool) (b : SizeBucket) :
  estimate_remaining_step eta r op (t, h) b =
    match estimate_one eta r op b with
    | Some v => (u64_add t v, true)
    | None => (t, h)
    end.
Proof.
  unfold estimate_remaining_step, estimate_one.
  destruct (eta !! (r, op, b)); [done|]. by destruct (eta !! (r, op, Unknown)).
Qed.

Lemma estimate_remaining_fold (eta : EtaTracker) (r op : string)
    (bs : list SizeBucket) (t : N) (h : bool) :
  fold_left (estimate_remaining_step eta r op) bs (t, h) =
    (fold_left u64_add (omap (estimate_one eta r op) bs) t,
     h || existsb (λ b, bool_decide (is_Some (estimate_one eta r op b))) bs).
Proof.
  revert t h. induction bs as [|b bs IH]; intros t h.
  - simpl. by rewrite orb_false_r.
  - change (fold_left (estimate_remaining_step eta r op) (b :: bs) (t, h)) with
      (fold_left (estimate_remaining_step eta r op) bs
         (estimate_remaining_step eta r op (t, h) b)).
    rewrite estimate_remaining_step_one. simpl.
    destruct (estimate_one eta r op b) as [v|]; simpl; rewrite IH; simpl.
    + by rewrite orb_true_r.
    + done.
Qed.

(** C3. [estimate_remaining] is [None] exactly when no bucket has data,
    directly or through the [Unknown] bucket of the same (resource,
    operation), and otherwise the [u64] sum of the per-bucket estimates of
    the buckets that have data; [estimate_remaining_ms] is [Some 0] for a
    job with no Pending or Running item; on the spec's scenario 3 it is
    [Some 2000]. *)
Theorem estimate_remaining_sum_or_none :
  (∀ (eta : EtaTracker) (r op : string) (bs : list SizeBucket),
     estimate_remaining eta r op bs =
       if existsb (λ b, bool_decide (is_Some (estimate_one eta r op b))) bs
       then Some (sum_N (omap (estimate_one eta r op) bs) `mod` u64_modulus)%N
       else None) ∧
  (∀ {D} (q : BatchQueue D) (id : string) (j : BatchJob D),
     get_job id q = Some j →
     Forall (λ it, item_status it ≠ ItemPending ∧ item_status it ≠ ItemRunning) (items j) →
     estimate_remaining_ms id q = Some 0%N) ∧
  estimate_remaining_ms "u1" eta_scenario = Some 2000%N.
Proof.
  split_and!.
  - intros eta r op bs. unfold estimate_remaining.
    rewrite estimate_remaining_fold, fold_u64_add by done. simpl.
    by destruct (existsb _ _).
  - intros D q id j Hj Hterm. unfold get_job in Hj. unfold estimate_remaining_ms.
    destruct (find_job (jobs q) id) as [[i j']|]; simpl in Hj; [|done].
    injection Hj as ->. simpl.
    rewrite decide_True; [done|].
    induction Hterm as [|it its [H1 H2] _ IH]; [done|].
    rewrite filter_cons, decide_False by tauto. exact IH.
  - vm_compute. reflexivity.
Qed.

(** ** Completion *)

Lemma length_filter_pos_Exists {A} (P : A → Prop) `{∀ x, Decision (P x)} (l : list A) :
  0 < length (filter P l) ↔ Exists P l.
Proof.
  induction l as [|x l IH]; simpl.
  - split; [lia|]. intros H'. inversion H'.
  - rewrite filter_cons, Exists_cons. destruct (decide (P x)); simpl.
    + split; [by left|lia].
    + rewrite IH. naive_solver.
Qed.

(** C4. [mark_completed] on an existing job: status [CompletedWithErrors]
    when an item failed, [Completed] otherwise, [completed_at] set, and the
    summary with the item counts, the ([u64]) sum of the recorded durations
    and its integer mean over the processed (succeeded + failed) items; on
    the spec's scenario 4 the summary is 3/2/1/0/7000/2333 and the job is
    [CompletedWithErrors]. *)
Theorem mark_completed_summary :
  (∀ {D} (now id : string) (q : BatchQueue D) (i : nat) (j : BatchJob D),
     find_job (jobs q) id = Some (i, j) →
     let failed_n := length (filter (λ it, item_status it = ItemFailed) (items j)) in
     let succeeded_n := length (filter (λ it, item_status it = ItemCompleted) (items j)) in
     let total_n := (sum_N (omap duration_ms (items j)) `mod` u64_modulus)%N in
     let processed := succeeded_n + failed_n in
     mark_completed now id q =
       (Ok (Some {| summary_job_id := job_id j; summary_operation := operation j;
                    summary_resource_key := resource_key j;
                    total := length (items j); succeeded := succeeded_n;
                    failed := failed_n;
                    skipped := length (filter (λ it, item_status it = ItemSkipped ∨
                                                     item_status it = ItemCancelled)
                                              (items j));
                    total_duration_ms := total_n;
                    avg_duration_ms :=
                      if decide (processed = 0) then 0%N
                      else (total_n `div` N.of_nat processed)%N |}),
        {| jobs := <[i := set_status_completed_at j
                            (if decide (Exists (λ it, item_status it = ItemFailed) (items j))
                             then CompletedWithErrors else Completed) (Some now)]> (jobs q);
           eta := eta q |})) ∧
  (match mark_completed T3 "u1" summary_scenario with
   | (Ok (Some s), q') =>
       (total s, succeeded s, failed s, skipped s, total_duration_ms s, avg_duration_ms s)
         = (3, 2, 1, 0, 7000%N, 2333%N) ∧
       (job_status <$> get_job "u1" q') = Some CompletedWithErrors
   | _ => False
   end).
Proof.
  split.
  - intros D now id q i j Hfind. simpl. unfold mark_completed. rewrite Hfind.
    rewrite fold_u64_add by done. rewrite N.add_0_l.
    assert (filter (λ it, item_status it = ItemCancelled ∨ item_status it = ItemSkipped) (items j)
          = filter (λ it, item_status it = ItemSkipped ∨ item_status it = ItemCancelled) (items j))
      as ->.
    { apply list_filter_iff. intros x. tauto. }
    repeat case_decide; try done; try lia;
      exfalso; match goal with
      | H : ¬ Exists _ _ |- _ => apply H; apply (proj1 (length_filter_pos_Exists _ _)); lia
      | H : Exists _ _ |- _ => apply (proj2 (length_filter_pos_Exists _ _)) in H; lia
      end.
  - vm_compute. split; reflexivity.
Qed.

(** ** Retry *)

Lemma existsb_Exists_decide {A} (P : A → Prop) `{∀ x, Decision (P x)} (l : list A) :
  existsb (λ x, bool_decide (P x)) l = true ↔ Exists P l.
Proof.
  induction l as [|x l IH]; simpl.
  - split; [done|]. intros H'. inversion H'.
  - rewrite orb_true_iff, bool_decide_eq_true, Exists_cons, IH. done.
Qed.

Lemma lookup_map_list {A B} (f : A → B) (l : list A) (k : nat) :
  map f l !! k = f <$> l !! k.
Proof. revert k. induction l as [|x l IH]; intros [|k]; simpl; auto. Qed.

(** C5. [retry_failed] on an existing job without a Failed item fails and
    leaves the queue unchanged; with a Failed item it resets exactly the
    Failed items to Pending with no error and no duration, re-queues the
    job with no [completed_at] and runs the reorder pass. On the spec's
    scenario 5 the items end Completed, Pending, Completed. *)
Theorem retry_failed_resets_failed :
  (∀ {D} (id : string) (q : BatchQueue D) (i : nat) (j : BatchJob D),
     find_job (jobs q) id = Some (i, j) →
     Forall (λ it, item_status it ≠ ItemFailed) (items j) →
     retry_failed id q = (Err (NoFailedItems id), q)) ∧
  (∀ {D} (id : string) (q : BatchQueue D) (i : nat) (j : BatchJob D),
     find_job (jobs q) id = Some (i, j) →
     Exists (λ it, item_status it = ItemFailed) (items j) →
     ∃ its, length its = length (items j) ∧
       (∀ k it, items j !! k = Some it →
          its !! k = Some (if decide (item_status it = ItemFailed)
                           then set_item_result it ItemPending None None else it)) ∧
       retry_failed id q =
         (Ok (), {| jobs := reorder_queued_jobs
                              (<[i := set_status_completed_at (set_items j its) Queued None]>
                                 (jobs q));
                    eta := eta q |})) ∧
  (match retry_failed "u1" completed_scenario with
   | (Ok (), q') =>
       ((λ j, (job_status j, map (λ it, (item_status it, item_error it, duration_ms it)) (items j)))
          <$> get_job "u1" q') =
       Some (Queued, [(ItemCompleted, None, Some 1000%N); (ItemPending, None, None);
                      (ItemCompleted, None, Some 1000%N)])
   | _ => False
   end).
Proof.
  split_and!.
  - intros D id q i j Hfind Hnone. unfold retry_failed. rewrite Hfind.
    destruct (existsb _ _) eqn:He; [|done].
    apply existsb_Exists_decide in He. exfalso.
    eapply Forall_Exists_neg; [exact Hnone|]. exact He.
  - intros D id q i j Hfind Hsome. exists (reset_failed (items j)). split_and!.
    + apply length_map.
    + intros k it Hk. unfold reset_failed. by rewrite lookup_map_list, Hk.
    + unfold retry_failed. rewrite Hfind.
      apply (proj2 (existsb_Exists_decide _ _)) in Hsome. by rewrite Hsome.
  - vm_compute. reflexivity.
Qed.

(** ** Cancellation *)

Lemma cancel_pending_running {D} (its : list (BatchItem D)) :
  existsb (λ it, bool_decide (item_status it = ItemRunning)) (cancel_pending its) =
  existsb (λ it, bool_decide (item_status it = ItemRunning)) its.
Proof.
  induction its as [|it its IH]; simpl; [done|]. rewrite IH. f_equal.
  destruct (decide (item_status it = ItemPending)) as [Hp|Hp]; [|done].
  simpl. rewrite Hp. done.
Qed.

(** C6 (amended). [cancel_job] on an existing job turns every Pending item
    into Cancelled, leaves the other items unchanged, and sets the job to
    Cancelled with [completed_at] exactly when no item is Running (the job
    is otherwise unchanged); on an id no job has it returns [Ok(())] and
    leaves the queue unchanged. *)
Theorem cancel_job_cancels_pending :
  (∀ {D} (now id : string) (q : BatchQueue D) (i : nat) (j : BatchJob D),
     find_job (jobs q) id = Some (i, j) →
     ∃ its, length its = length (items j) ∧
       (∀ k it, items j !! k = Some it →
          its !! k = Some (if decide (item_status it = ItemPending)
                           then set_item_result it ItemCancelled (item_error it) (duration_ms it)
                           else it)) ∧
       cancel_job now id q =
         (Ok (), {| jobs := <[i := if decide (Exists (λ it, item_status it = ItemRunning) (items j))
                                 then set_items j its
                                 else set_status_completed_at (set_items j its) Cancelled (Some now)]>
                              (jobs q);
                    eta := eta q |})) ∧
  (∀ {D} (now id : string) (q : BatchQueue D),
     find_job (jobs q) id = None → cancel_job now id q = (Ok (), q)).
Proof.
  split.
  - intros D now id q i j Hfind. exists (cancel_pending (items j)). split_and!.
    + apply length_map.
    + intros k it Hk. unfold cancel_pending. by rewrite lookup_map_list, Hk.
    + unfold cancel_job. rewrite Hfind, cancel_pending_running.
      destruct (existsb _ _) eqn:He.
      * apply existsb_Exists_decide in He. by rewrite decide_True.
      * rewrite decide_False; [done|]. intros Hex.
        apply Bool.diff_false_true. rewrite <- He.
        apply (proj2 (existsb_Exists_decide _ _)). exact Hex.
  - intros D now id q Hnone. unfold cancel_job. by rewrite Hnone.
Qed.

(** C6 (counterexample). Cancelling an id no job has is not an error. *)
Lemma cancel_job_missing_is_ok :
  fst (cancel_job T1 "missing" (new_queue : BatchQueue string)) = Ok () ∧
  ¬ ∃ e, fst (cancel_job T1 "missing" (new_queue : BatchQueue string)) = Err e.
Proof. split; [reflexivity|]. intros [e He]. vm_compute in He. discriminate. Qed.

(** ** Starting a job *)

(** C7 (amended). [mark_running] sets the first job with the id to
    Running with [started_at = now] whatever its status, changes nothing
    else, and is a no-op on an id no job has. *)
Theorem mark_running_unconditional :
  (∀ {D} (now id : string) (q : BatchQueue D) (i : nat) (j : BatchJob D),
     find_job (jobs q) id = Some (i, j) →
     let q' := snd (mark_running now id q) in
     fst (mark_running now id q) = Ok () ∧
     jobs q' !! i = Some {| job_id := job_id j; resource_key := resource_key j;
                            operation := operation j;
                            overwrite_policy := overwrite_policy j;
                            items := items j; job_status := Running;
                            created_at := created_at j; started_at := Some now;
                            completed_at := completed_at j; reordered := reordered j;
                            reorder_note := reorder_note j |} ∧
     length (jobs q') = length (jobs q) ∧
     (∀ k, k ≠ i → jobs q' !! k = jobs q !! k) ∧
     eta q' = eta q) ∧
  (∀ {D} (now id : string) (q : BatchQueue D),
     find_job (jobs q) id = None → mark_running now id q = (Ok (), q)).
Proof.
  split.
  - intros D now id q i j Hfind. simpl. unfold mark_running. rewrite Hfind. simpl.
    apply list_find_Some in Hfind as (Hi & _ & _).
    split_and!; [done| |apply length_insert|..|done].
    + apply list_lookup_insert_eq. by eapply lookup_lt_Some.
    + intros k Hk. by apply list_lookup_insert_ne.
  - intros D now id q Hnone. unfold mark_running. by rewrite Hnone.
Qed.

(** C7 (counterexample). [mark_running] on a job that is already
    [CompletedWithErrors] makes it Running again and overwrites
    [started_at]. *)
Lemma mark_running_on_completed_job :
  (λ j, (job_status j, started_at j)) <$> get_job "u1" completed_scenario =
    Some (CompletedWithErrors, Some T2) ∧
  (λ j, (job_status j, started_at j)) <$> get_job "u1" (snd (mark_running T4 "u1" completed_scenario)) =
    Some (Running, Some T4).
Proof. vm_compute. split; reflexivity. Qed.

(** ** Enqueue *)

Section EnqueueFacts.
Context {D : Type}.
Implicit Types (j : BatchJob D) (js : list (BatchJob D)).









End EnqueueFacts.



(** ** Item updates and ETA samples *)

Lemma update_item_found {D} (jid iid : string) (st : BatchItemStatus)
    (err : option string) (dur : option N) (q : BatchQueue D)
    (i : nat) (j : BatchJob D) (k : nat) (it : BatchItem D) :
  find_job (jobs q) jid = Some (i, j) →
  find_item (items j) iid = Some (k, it) →
  update_item jid iid st err dur q =
    (Ok (), {| jobs := <[i := set_items j (<[k := set_item_result it st err dur]> (items j))]>
                         (jobs q);
               eta := match bool_decide (st = ItemCompleted) && bool_decide (is_Some dur), dur with
                      | true, Some ms => record (eta q) (resource_key j) (operation j)
                                           (size_bucket it) ms
                      | _, _ => eta q
                      end |}).
Proof. intros Hj Hi. unfold update_item. by rewrite Hj, Hi. Qed.

(** C9. [update_item] on an existing item adds a sample to the ETA
    accumulator of the job's (resource, operation) and the item's size
    bucket exactly when the new status is Completed and a duration is
    given, touching no other key; the key's count is then positive (while
    the [u64] counter does not wrap) and its average is [total_ms / count]. *)
Theorem update_item_records_eta_sample :
  ∀ {D} (jid iid : string) (st : BatchItemStatus) (err : option string)
    (dur : option N) (q : BatchQueue D) (i : nat) (j : BatchJob D) (k : nat)
    (it : BatchItem D),
    find_job (jobs q) jid = Some (i, j) →
    find_item (items j) iid = Some (k, it) →
    let key := (resource_key j, operation j, size_bucket it) in
    let q' := snd (update_item jid iid st err dur q) in
    let old := default {| total_ms := 0; count := 0 |} (eta q !! key) in
    (∀ ms, st = ItemCompleted → dur = Some ms →
       eta q' !! key = Some {| total_ms := u64_add (total_ms old) ms;
                               count := u64_add (count old) 1 |} ∧
       (∀ key', key' ≠ key → eta q' !! key' = eta q !! key') ∧
       ((count old + 1 < u64_modulus)%N →
        ∃ s, eta q' !! key = Some s ∧ (0 < count s)%N ∧
             avg_ms s = (total_ms s `div` count s)%N)) ∧
    (st ≠ ItemCompleted ∨ dur = None → eta q' = eta q).
Proof.
  intros D jid iid st err dur q i j k it Hj Hi key q' old.
  subst q'. rewrite (update_item_found _ _ _ _ _ _ _ _ _ _ Hj Hi). simpl. split.
  - intros ms -> ->. simpl. unfold record. fold key. fold old. split_and!.
    + apply lookup_insert_eq.
    + intros key' Hne. by apply lookup_insert_ne.
    + intros Hlt. eexists. split; [apply lookup_insert_eq|]. simpl.
      unfold u64_add. rewrite (N.mod_small (count old + 1)%N) by exact Hlt.
      split; [lia|]. unfold avg_ms. simpl. by rewrite decide_False by lia.
  - intros [Hst| ->].
    + by rewrite bool_decide_eq_false_2 by done.
    + by destruct (bool_decide _).
Qed.

Lemma update_item_records_eta_sample_witness :
  find_job (jobs started_queue) "u1" = Some (0, started_job) ∧
  find_item (items started_job) "item-0" = Some (0, make_item 0) ∧
  ∃ s, eta (snd (update_item "u1" "item-0" ItemCompleted None (Some 1000%N) started_queue))
         !! ("model-a", "tag", Medium) = Some s ∧ (0 < count s)%N.
Proof.
  assert (find_job (jobs started_queue) "u1" = Some (0, started_job)) as Hj
    by (vm_compute; reflexivity).
  assert (find_item (items started_job) "item-0" = Some (0, make_item 0)) as Hi
    by (vm_compute; reflexivity).
  split; [exact Hj|]. split; [exact Hi|].
  destruct (update_item_records_eta_sample "u1" "item-0" ItemCompleted None (Some 1000%N)
              started_queue 0 started_job 0 (make_item 0) Hj Hi) as [Hrec _].
  destruct (Hrec 1000%N eq_refl eq_refl) as (_ & _ & Hpos).
  destruct Hpos as (s & Hs & Hc & _).
  - vm_compute. reflexivity.
  - exists s. split; [exact Hs|exact Hc].
Defined.

(** C10. [update_item] writes the given status, error and duration into an
    existing item whatever the item's previous status. *)
Theorem update_item_unconditional :
  ∀ {D} (jid iid : string) (st : BatchItemStatus) (err : option string)
    (dur : option N) (q : BatchQueue D) (i : nat) (j : BatchJob D) (k : nat)
    (it : BatchItem D),
    find_job (jobs q) jid = Some (i, j) →
    find_item (items j) iid = Some (k, it) →
    let q' := snd (update_item jid iid st err dur q) in
    fst (update_item jid iid st err dur q) = Ok () ∧
    ∃ j' it', jobs q' !! i = Some j' ∧ find_job (jobs q') jid = Some (i, j') ∧
              find_item (items j') iid = Some (k, it') ∧
              item_status it' = st ∧ item_error it' = err ∧ duration_ms it' = dur.
Proof.
  intros D jid iid st err dur q i j k it Hj Hi q'. subst q'.
  rewrite (update_item_found _ _ _ _ _ _ _ _ _ _ Hj Hi). simpl. split; [done|].
  unfold find_job, find_item in *.
  apply list_find_Some in Hj as (Hjl & Hjid & Hjbefore).
  apply list_find_Some in Hi as (Hil & Hiid & Hibefore).
  eexists _, _. split_and!.
  - apply list_lookup_insert_eq. by eapply lookup_lt_Some.
  - apply list_find_Some. split_and!.
    + apply list_lookup_insert_eq. by eapply lookup_lt_Some.
    + done.
    + intros i' y Hy Hlt. rewrite list_lookup_insert_ne in Hy by lia.
      by eapply Hjbefore.
  - apply list_find_Some. simpl. split_and!.
    + apply list_lookup_insert_eq. by eapply lookup_lt_Some.
    + done.
    + intros k' y Hy Hlt. rewrite list_lookup_insert_ne in Hy by lia.
      by eapply Hibefore.
  - done.
  - done.
  - done.
Qed.

(** Witness of C10: a Cancelled item of a Cancelled job is set back to
    Pending. *)
Lemma update_item_unconditional_witness :
  find_job (jobs cancelled_queue) "u1" = Some (0, cancelled_job) ∧
  find_item (items cancelled_job) "item-1" =
    Some (1, set_item_result (make_item 1) ItemCancelled None None) ∧
  ∃ j' it', find_job (jobs (snd (update_item "u1" "item-1" ItemPending None None
                                  cancelled_queue))) "u1" = Some (0, j') ∧
            find_item (items j') "item-1" = Some (1, it') ∧ item_status it' = ItemPending.
Proof.
  assert (find_job (jobs cancelled_queue) "u1" = Some (0, cancelled_job)) as Hj
    by (vm_compute; reflexivity).
  assert (find_item (items cancelled_job) "item-1" =
            Some (1, set_item_result (make_item 1) ItemCancelled None None)) as Hi
    by (vm_compute; reflexivity).
  split; [exact Hj|]. split; [exact Hi|].
  destruct (update_item_unconditional "u1" "item-1" ItemPending None None cancelled_queue
              0 cancelled_job 1 _ Hj Hi) as [_ (j' & it' & _ & Hfj & Hfi & Hst & _)].
  exists j', it'. split; [exact Hfj|]. split; [exact Hfi|exact Hst].
Defined.

(* ------------------------------------------------------------------ *)
(** * Further properties of the code *)

(** ** Size buckets (types.rs) *)

(** [from_pixel_count] never answers [Unknown], and a larger pixel count
    never gets a smaller bucket (Small < Medium < Large). *)
Theorem from_pixel_count_monotone (p p' : N) :
  (p ≤ p')%N →
  from_pixel_count p ≠ Unknown ∧
  SizeBucket_to_nat (from_pixel_count p) ≤ SizeBucket_to_nat (from_pixel_count p').
Proof.
  intros Hle. unfold from_pixel_count.
  split; [repeat destruct (decide _); discriminate|].
  repeat destruct (decide _); simpl; lia.
Qed.

Lemma from_pixel_count_monotone_witness :
  (499999 ≤ 500000)%N ∧
  SizeBucket_to_nat (from_pixel_count 499999) < SizeBucket_to_nat (from_pixel_count 500000).
Proof.
  split; [lia|].
  destruct (from_pixel_count_monotone 499999 500000) as [_ _]; [lia|].
  vm_compute. lia.
Defined.

(** For [u32] dimensions the [u64] product never wraps, so
    [from_dimensions] classifies the true pixel count; a missing
    dimension gives [Unknown]. *)
Theorem from_dimensions_u32 (w h : N) :
  (w < 2 ^ 32)%N → (h < 2 ^ 32)%N →
  from_dimensions (Some w) (Some h) = from_pixel_count (w * h) ∧
  from_dimensions (Some w) (Some h) ≠ Unknown ∧
  from_dimensions (Some w) None = Unknown ∧
  from_dimensions None (Some h) = Unknown ∧
  from_dimensions None None = Unknown.
Proof.
  intros Hw Hh. unfold from_dimensions.
  assert ((w * h) `mod` (2 ^ 64) = w * h)%N as Hm.
  { apply N.mod_small.
    replace (2 ^ 64)%N with (2 ^ 32 * 2 ^ 32)%N by reflexivity. nia. }
  rewrite Hm. split_and!; [done| |done|done|done].
  unfold from_pixel_count. repeat destruct (decide _); discriminate.
Qed.

Lemma from_dimensions_u32_witness :
  (4294967295 < 2 ^ 32)%N ∧
  from_dimensions (Some 4294967295%N) (Some 4294967295%N) = Large.
Proof.
  split; [vm_compute; reflexivity|].
  destruct (from_dimensions_u32 4294967295 4294967295) as [-> _];
    [vm_compute; reflexivity|vm_compute; reflexivity|].
  vm_compute. reflexivity.
Defined.

(** ** ETA tracker (eta.rs) *)

Lemma record_fold_cons (eta : EtaTracker) (r op : string) (b : SizeBucket)
    (d : N) (ds : list N) :
  let key := (r, op, b) in
  let old := default {| total_ms := 0; count := 0 |} (eta !! key) in
  fold_left (λ e d, record e r op b d) (d :: ds) eta !! key =
    Some {| total_ms := (total_ms old + d + sum_N ds) `mod` u64_modulus;
            count := (count old + 1 + N.of_nat (length ds)) `mod` u64_modulus |}%N.
Proof.
  revert eta d. induction ds as [|d' ds IH]; intros eta d key old.
  - simpl. unfold record. fold key. fold old. rewrite lookup_insert_eq.
    unfold sum_N. simpl. unfold u64_add. by rewrite !N.add_0_r.
  - change (fold_left (λ e d, record e r op b d) (d :: d' :: ds) eta) with
      (fold_left (λ e d, record e r op b d) (d' :: ds) (record eta r op b d)).
    rewrite IH. unfold record. fold key. fold old.
    rewrite lookup_insert_eq. simpl. unfold u64_add.
    rewrite <- !N.add_assoc, !N.Div0.add_mod_idemp_l. unfold sum_N. simpl.
    do 2 f_equal; [f_equal; lia|]. f_equal. lia.
Qed.

Lemma record_fold_ne (eta : EtaTracker) (r op : string) (b : SizeBucket)
    (ds : list N) key' :
  key' ≠ (r, op, b) →
  fold_left (λ e d, record e r op b d) ds eta !! key' = eta !! key'.
Proof.
  revert eta. induction ds as [|d ds IH]; intros eta Hne; [done|].
  simpl. rewrite IH by done. unfold record. by rewrite lookup_insert_ne by congruence.
Qed.

(** Recording a non-empty series of durations for one (resource,
    operation, bucket) key accumulates their [u64] sum and their number
    into that key only; while neither counter wraps, [estimate_one] for
    the key then answers the integer mean of everything recorded there and
    [sample_count] their number. *)
Theorem record_series_mean (eta : EtaTracker) (r op : string) (b : SizeBucket)
    (ds : list N) :
  ds ≠ [] →
  let key := (r, op, b) in
  let old := default {| total_ms := 0; count := 0 |} (eta !! key) in
  let eta' := fold_left (λ e d, record e r op b d) ds eta in
  eta' !! key = Some {| total_ms := (total_ms old + sum_N ds) `mod` u64_modulus;
                        count := (count old + N.of_nat (length ds)) `mod` u64_modulus |}%N ∧
  (∀ key', key' ≠ key → eta' !! key' = eta !! key') ∧
  ((total_ms old + sum_N ds < u64_modulus)%N →
   (count old + N.of_nat (length ds) < u64_modulus)%N →
   estimate_one eta' r op b =
     Some ((total_ms old + sum_N ds) `div` (count old + N.of_nat (length ds)))%N ∧
   sample_count eta' r op b = (count old + N.of_nat (length ds))%N).
Proof.
  intros Hne key old eta'.
  assert (eta' !! key = Some {| total_ms := (total_ms old + sum_N ds) `mod` u64_modulus;
            count := (count old + N.of_nat (length ds)) `mod` u64_modulus |}%N) as Hk.
  { destruct ds as [|d ds]; [done|]. subst eta' old key. rewrite record_fold_cons.
    unfold sum_N. simpl. do 2 f_equal; [f_equal; lia|]. f_equal. lia. }
  split_and!; [exact Hk| |].
  - intros key' Hk'. by apply record_fold_ne.
  - intros Ht Hc. unfold estimate_one, sample_count. fold key. rewrite Hk. simpl.
    rewrite (N.mod_small (total_ms old + sum_N ds)%N) by exact Ht.
    rewrite (N.mod_small (count old + N.of_nat (length ds))%N) by exact Hc.
    split; [|done]. unfold avg_ms. simpl. rewrite decide_False; [done|].
    destruct ds; [done|]. simpl. lia.
Qed.

(** Witness: the [test_record_and_estimate] series (1000 then 2000 ms)
    recorded into an empty tracker. *)
Lemma record_series_mean_witness :
  estimate_one (fold_left (λ e d, record e "model-a" "tag" Medium d) [1000%N; 2000%N] ∅)
    "model-a" "tag" Medium = Some 1500%N ∧
  sample_count (fold_left (λ e d, record e "model-a" "tag" Medium d) [1000%N; 2000%N] ∅)
    "model-a" "tag" Medium = 2%N.
Proof.
  destruct (record_series_mean ∅ "model-a" "tag" Medium [1000%N; 2000%N])
    as (_ & _ & Hmean); [discriminate|].
  destruct Hmean as [He Hs]; [vm_compute; reflexivity|vm_compute; reflexivity|].
  split; [rewrite He|rewrite Hs]; vm_compute; reflexivity.
Defined.

Lemma estimate_remaining_step_ext (eta eta' : EtaTracker) (r op : string) :
  (∀ b, eta' !! (r, op, b) = eta !! (r, op, b)) →
  ∀ bs acc, fold_left (estimate_remaining_step eta' r op) bs acc =
            fold_left (estimate_remaining_step eta r op) bs acc.
Proof.
  intros Hb bs. induction bs as [|b bs IH]; intros [t hd]; [done|].
  simpl. rewrite IH. unfold estimate_remaining_step. by rewrite !Hb.
Qed.

(** Samples recorded for one (resource, operation) pair never change the
    estimates or sample counts of another pair. *)
Theorem record_isolated (eta : EtaTracker) (r op r' op' : string)
    (b b' : SizeBucket) (d : N) (bs : list SizeBucket) :
  (r', op') ≠ (r, op) →
  estimate_one (record eta r' op' b' d) r op b = estimate_one eta r op b ∧
  estimate_remaining (record eta r' op' b' d) r op bs = estimate_remaining eta r op bs ∧
  sample_count (record eta r' op' b' d) r op b = sample_count eta r op b.
Proof.
  intros Hne.
  assert (∀ c, record eta r' op' b' d !! (r, op, c) = eta !! (r, op, c)) as Hl.
  { intros c. unfold record. rewrite lookup_insert_ne; [done|]. congruence. }
  unfold estimate_one, estimate_remaining, sample_count. rewrite !Hl.
  split_and!; [done| |done].
  by rewrite (estimate_remaining_step_ext eta).
Qed.

(** Witness: the [test_different_operations_isolated] data. *)
Lemma record_isolated_witness :
  ("model", "caption") ≠ ("model", "tag") ∧
  estimate_one (record (record ∅ "model" "tag" Medium 1000) "model" "caption" Medium 3000)
    "model" "tag" Medium = Some 1000%N.
Proof.
  assert (("model", "caption") ≠ ("model", "tag")) as Hne by discriminate.
  split; [exact Hne|].
  destruct (record_isolated (record ∅ "model" "tag" Medium 1000) "model" "tag" "model"
              "caption" Medium Medium 3000 [] Hne) as [-> _].
  vm_compute. reflexivity.
Defined.

Lemma estimate_remaining_sum (eta : EtaTracker) (r op : string) (bs : list SizeBucket) :
  estimate_remaining eta r op bs =
    if existsb (λ b, bool_decide (is_Some (estimate_one eta r op b))) bs
    then Some (sum_N (omap (estimate_one eta r op) bs) `mod` u64_modulus)%N
    else None.
Proof.
  unfold estimate_remaining.
  rewrite estimate_remaining_fold, fold_u64_add by done. simpl.
  by destruct (existsb _ _).
Qed.

(** [estimate_remaining] depends only on the multiset of buckets, not on
    their order; with no bucket at all it is [None]. *)
Theorem estimate_remaining_perm (eta : EtaTracker) (r op : string)
    (bs bs' : list SizeBucket) :
  bs ≡ₚ bs' →
  estimate_remaining eta r op bs = estimate_remaining eta r op bs' ∧
  estimate_remaining eta r op [] = None.
Proof.
  intros Hp. split; [|done]. rewrite !estimate_remaining_sum.
  set (f := estimate_one eta r op).
  assert (existsb (λ b, bool_decide (is_Some (f b))) bs =
          existsb (λ b, bool_decide (is_Some (f b))) bs') as ->.
  { induction Hp as [|x l l' _ IH|x y l|l l' l'' _ IH1 _ IH2]; simpl.
    - done.
    - by rewrite IH.
    - by rewrite !orb_assoc, (orb_comm (bool_decide _) (bool_decide _)).
    - by rewrite IH1, IH2. }
  assert (sum_N (omap f bs) = sum_N (omap f bs')) as ->; [|done].
  unfold sum_N. induction Hp as [|x l l' _ IH|x y l|l l' l'' _ IH1 _ IH2]; simpl.
  - done.
  - unfold omap in IH; simpl in IH. destruct (f x); simpl; by rewrite IH.
  - destruct (f x), (f y); simpl; lia.
  - by rewrite IH1, IH2.
Qed.

Lemma estimate_remaining_perm_witness :
  [Small; Small; Large] ≡ₚ [Large; Small; Small] ∧
  estimate_remaining (record (record ∅ "model-a" "tag" Small 500) "model-a" "tag" Large 2000)
    "model-a" "tag" [Large; Small; Small] = Some 3000%N.
Proof.
  assert ([Small; Small; Large] ≡ₚ [Large; Small; Small]) as Hp.
  { rewrite (Permutation_middle [Small; Small] [] Large). reflexivity. }
  split; [exact Hp|].
  destruct (estimate_remaining_perm
              (record (record ∅ "model-a" "tag" Small 500) "model-a" "tag" Large 2000)
              "model-a" "tag" _ _ Hp) as [<- _].
  vm_compute. reflexivity.
Defined.

(** ** Queue operations (queue.rs) *)

Lemma list_find_insert_same {A} (P : A → Prop) `{∀ x, Decision (P x)}
    (l : list A) i x y :
  list_find P l = Some (i, x) → P y → list_find P (<[i:=y]> l) = Some (i, y).
Proof.
  intros [Hl [_ Hbefore]]%list_find_Some Hy. apply list_find_Some. split_and!.
  - apply list_lookup_insert_eq. by eapply lookup_lt_Some.
  - done.
  - intros j z Hz Hlt. rewrite list_lookup_insert_ne in Hz by lia. by eapply Hbefore.
Qed.

(** [cancel_item] only ever turns a Pending item into a Cancelled one
    (error and duration kept): every other item, every job status and the
    ETA data stay as they were, and a second identical call changes
    nothing more. *)
Theorem cancel_item_pending_only {D} (jid iid : string) (q : BatchQueue D) :
  let q' := snd (cancel_item jid iid q) in
  fst (cancel_item jid iid q) = Ok () ∧
  snd (cancel_item jid iid q') = q' ∧
  map job_status (jobs q') = map job_status (jobs q) ∧
  eta q' = eta q ∧
  (∀ i j k it, jobs q !! i = Some j → items j !! k = Some it →
     ∃ j' it', jobs q' !! i = Some j' ∧ items j' !! k = Some it' ∧
       (it' = it ∨ (item_status it = ItemPending ∧
                    it' = set_item_result it ItemCancelled (item_error it) (duration_ms it)))).
Proof.
  intros q'.
  assert (cancel_item jid iid q = (Ok (), q) →
          fst (cancel_item jid iid q) = Ok () ∧
          snd (cancel_item jid iid (snd (cancel_item jid iid q))) =
            snd (cancel_item jid iid q) ∧
          map job_status (jobs (snd (cancel_item jid iid q))) = map job_status (jobs q) ∧
          eta (snd (cancel_item jid iid q)) = eta q ∧
          (∀ i j k it, jobs q !! i = Some j → items j !! k = Some it →
             ∃ j' it', jobs (snd (cancel_item jid iid q)) !! i = Some j' ∧
               items j' !! k = Some it' ∧
               (it' = it ∨ (item_status it = ItemPending ∧
                 it' = set_item_result it ItemCancelled (item_error it) (duration_ms it)))))
    as Hsame.
  { intros Heq. rewrite !Heq. simpl. rewrite Heq. simpl. split_and!; [done..|].
    intros i j k it Hij Hk. exists j, it. split_and!; [done|done|by left]. }
  subst q'.
  destruct (find_job (jobs q) jid) as [[i0 j0]|] eqn:Hj;
    [|apply Hsame; unfold cancel_item; by rewrite Hj].
  destruct (find_item (items j0) iid) as [[k0 it0]|] eqn:Hi;
    [|apply Hsame; unfold cancel_item; by rewrite Hj, Hi].
  destruct (decide (item_status it0 = ItemPending)) as [Hp|Hp];
    [|apply Hsame; unfold cancel_item; rewrite Hj, Hi; by rewrite decide_False].
  pose proof Hj as Hj'. unfold find_job in Hj'.
  apply list_find_Some in Hj' as (Hj0 & Hid0 & _).
  pose proof Hi as Hi'. unfold find_item in Hi'.
  apply list_find_Some in Hi' as (Hk0 & Hiid0 & _).
  set (it0' := set_item_result it0 ItemCancelled (item_error it0) (duration_ms it0)).
  set (j0' := set_items j0 (<[k0:=it0']> (items j0))).
  assert (cancel_item jid iid q = (Ok (), {| jobs := <[i0:=j0']> (jobs q); eta := eta q |}))
    as ->.
  { unfold cancel_item. rewrite Hj, Hi. by rewrite decide_True. }
  simpl. split_and!.
  - done.
  - unfold cancel_item. simpl. unfold find_job.
    rewrite (list_find_insert_same _ _ i0 j0 j0' Hj Hid0).
    unfold find_item. simpl. rewrite (list_find_insert_same _ _ k0 it0 it0' Hi Hiid0).
    by rewrite decide_False.
  - apply list_eq. intros i. rewrite !lookup_map_list.
    destruct (decide (i = i0)) as [->|Hne].
    + rewrite list_lookup_insert_eq by (by eapply lookup_lt_Some). by rewrite Hj0.
    + by rewrite list_lookup_insert_ne by congruence.
  - done.
  - intros i j k it Hij Hk.
    destruct (decide (i = i0)) as [->|Hne].
    + rewrite Hj0 in Hij. injection Hij as <-.
      exists j0'. rewrite list_lookup_insert_eq by (by eapply lookup_lt_Some).
      destruct (decide (k = k0)) as [->|Hnk].
      * rewrite Hk0 in Hk. injection Hk as <-. exists it0'. simpl.
        rewrite list_lookup_insert_eq by (by eapply lookup_lt_Some).
        split_and!; [done|done|by right].
      * exists it. simpl. rewrite list_lookup_insert_ne by congruence.
        split_and!; [done|done|by left].
    + exists j, it. rewrite list_lookup_insert_ne by congruence.
      split_and!; [done|done|by left].
Qed.

Lemma length_filter_queued {D} (js : list (BatchJob D)) :
  length (filter (λ j, job_status j = Queued) js) = length (queued_jobs js).
Proof.
  induction js as [|j js IH]; [done|].
  rewrite filter_cons, queued_jobs_cons.
  destruct (decide (job_status j = Queued)); simpl; lia.
Qed.

Lemma queued_jobs_snoc {D} (js : list (BatchJob D)) x :
  job_status x = Queued → queued_jobs (js ++ [x]) = queued_jobs js ++ [x].
Proof.
  intros Hx. induction js as [|j js IH].
  - simpl. rewrite queued_jobs_cons, decide_True by done. done.
  - simpl. rewrite !queued_jobs_cons. destruct (decide _); [|done].
    simpl. by rewrite IH.
Qed.

Lemma length_queued_jobs_reorder {D} (js : list (BatchJob D)) :
  length (queued_jobs (reorder_queued_jobs js)) = length (queued_jobs js).
Proof.
  destruct (reorder_queued_jobs_cases js) as [->|(Hlen & _ & ->)]; [done|].
  rewrite queued_jobs_reordered by done.
  by rewrite length_map, length_sort_by_resource_key.
Qed.

Lemma map_status_reorder {D} (js : list (BatchJob D)) :
  map job_status (reorder_queued_jobs js) = map job_status js.
Proof.
  apply list_eq. intros i. rewrite !lookup_map_list.
  destruct (reorder_queued_jobs_cases js) as [->|(_ & _ & ->)]; [done|].
  apply fill_queued_status, marked_sorted_status.
Qed.

Lemma existsb_running_status {D} (js : list (BatchJob D)) :
  existsb (λ j, bool_decide (job_status j = Running)) js =
  existsb (λ s, bool_decide (s = Running)) (map job_status js).
Proof. induction js as [|j js IH]; simpl; [done|]. by rewrite IH. Qed.

(** [enqueue] adds exactly one queued job ([queued_count] grows by one)
    and never changes whether a job is running. *)
Theorem enqueue_counts {D} (uuid now : string) (j : BatchJob D) (q : BatchQueue D) :
  let q' := snd (enqueue uuid now j q) in
  queued_count q' = S (queued_count q) ∧ has_running_job q' = has_running_job q.
Proof.
  intros q'. subst q'. unfold queued_count, has_running_job. simpl.
  rewrite !length_filter_queued, length_queued_jobs_reorder, queued_jobs_snoc by done.
  rewrite length_app. simpl. split; [lia|].
  rewrite !existsb_running_status, map_status_reorder, map_app, existsb_app. simpl.
  by rewrite orb_false_r.
Qed.

Lemma queued_jobs_reorder_sorted {D} (js : list (BatchJob D)) :
  NoDup (map job_id (queued_jobs js)) → Sorted key_le (queued_jobs (reorder_queued_jobs js)).
Proof.
  intros Hnd. rewrite reorder_queued_jobs_eq.
  assert (sort_by_resource_key (queued_jobs js) = queued_jobs js →
          Sorted key_le (queued_jobs js)) as Hsame.
  { intros Hid. rewrite <- Hid. apply sort_by_resource_key_sorted. }
  destruct (decide (length (queued_jobs js) < 2)) as [Hl|Hl].
  - apply Hsame.
    destruct (queued_jobs js) as [|x [|y l]]; simpl in Hl; [done|done|lia].
  - destruct (decide (map job_id (queued_jobs js) ≠ _)) as [Hne|Heq].
    + rewrite queued_jobs_reordered by lia.
      apply sorted_map_mark_reordered, sort_by_resource_key_sorted.
    + apply Hsame. symmetry. apply perm_same_ids; [..|done].
      * symmetry. apply sort_by_resource_key_perm.
      * destruct (decide (map job_id (queued_jobs js) =
                          map job_id (sort_by_resource_key (queued_jobs js))));
          [done|by exfalso].
Qed.

Lemma next_queued_head {D} (q : BatchQueue D) :
  next_queued q = head (queued_jobs (jobs q)).
Proof.
  unfold next_queued. induction (jobs q) as [|j js IH]; [done|].
  rewrite queued_jobs_cons. simpl. destruct (decide _); [done|].
  rewrite <- IH. by destruct (list_find _ js) as [[]|].
Qed.

Lemma str_leb_refl (s : string) : String.leb s s = true.
Proof. unfold String.leb. by rewrite str_compare_refl. Qed.

(** After an [enqueue] whose queued ids are all distinct, the job the
    executor takes next ([next_queued]) is a queued job with the smallest
    resource key (byte-wise) among all queued jobs. *)
Theorem enqueue_next_queued_min_key {D} (uuid now : string) (j : BatchJob D)
    (q : BatchQueue D) :
  NoDup (map job_id (queued_jobs (jobs q)) ++
         [if decide (job_id j = "") then uuid else job_id j]) →
  let q' := snd (enqueue uuid now j q) in
  ∃ j0, next_queued q' = Some j0 ∧ j0 ∈ queued_jobs (jobs q') ∧
        Forall (λ j1, String.leb (resource_key j0) (resource_key j1) = true)
          (queued_jobs (jobs q')).
Proof.
  intros Hnd q'. subst q'. simpl.
  match goal with |- context [reorder_queued_jobs (jobs q ++ [?n])] => set (nj := n) end.
  assert (queued_jobs (jobs q ++ [nj]) = queued_jobs (jobs q) ++ [nj]) as Hsnoc
    by (by apply queued_jobs_snoc).
  assert (Sorted key_le (queued_jobs (reorder_queued_jobs (jobs q ++ [nj])))) as Hs.
  { apply queued_jobs_reorder_sorted. rewrite Hsnoc, map_app. exact Hnd. }
  pose proof (length_queued_jobs_reorder (jobs q ++ [nj])) as Hlen.
  rewrite Hsnoc, length_app in Hlen. simpl in Hlen.
  rewrite next_queued_head. simpl.
  destruct (queued_jobs (reorder_queued_jobs (jobs q ++ [nj]))) as [|x l];
    [simpl in Hlen; lia|].
  exists x. split_and!; [done|apply elem_of_cons; by left|].
  constructor; [apply str_leb_refl|].
  apply (Sorted_extends (R:=key_le)); [|done].
  intros a b c Hab Hbc. exact (str_leb_trans _ _ _ Hab Hbc).
Qed.

Lemma enqueue_next_queued_min_key_witness :
  NoDup (map job_id (queued_jobs (jobs one_job_queue)) ++ ["j2"]) ∧
  ∃ j0, next_queued (snd (enqueue "u2" T2 (make_job "j2" "model-0" "tag" 1) one_job_queue)) =
          Some j0 ∧ String.leb (resource_key j0) "model-a" = true.
Proof.
  assert (NoDup (map job_id (queued_jobs (jobs one_job_queue)) ++
                 [if decide (job_id (make_job "j2" "model-0" "tag" 1) = "") then "u2"
                  else job_id (make_job "j2" "model-0" "tag" 1)])) as Hnd.
  { apply (bool_decide_eq_true_1 _). vm_compute. reflexivity. }
  split; [exact Hnd|].
  destruct (enqueue_next_queued_min_key "u2" T2 (make_job "j2" "model-0" "tag" 1)
              one_job_queue Hnd) as (j0 & Hn & _ & Hall).
  exists j0. split; [exact Hn|].
  vm_compute in Hall. apply Forall_inv_tail, Forall_inv in Hall. exact Hall.
Defined.

(** Once [mark_running] has found its job, a job is Running and the
    executor's loop iteration neither starts a job nor emits an event. *)
Theorem mark_running_blocks_executor {D} (h : Handler D) (t t1 t2 id : string)
    (q : BatchQueue D) :
  (∃ j, j ∈ jobs q ∧ job_id j = id) →
  let q' := snd (mark_running t id q) in
  has_running_job q' = true ∧ run_loop_step h t1 t2 q' = (q', []).
Proof.
  intros (j & Hj & Hid) q'.
  assert (has_running_job q' = true) as Hr.
  { subst q'. unfold mark_running.
    destruct (find_job (jobs q) id) as [[i j0]|] eqn:Hf.
    - unfold has_running_job. simpl. apply existsb_exists.
      unfold find_job in Hf. apply list_find_Some in Hf as (Hi & _ & _).
      eexists. split.
      + apply list_elem_of_In. eapply list_elem_of_lookup_2.
        apply list_lookup_insert_eq. by eapply lookup_lt_Some.
      + by apply bool_decide_eq_true.
    - exfalso. unfold find_job in Hf.
      destruct (list_find_elem_of (λ j, job_id j = id) (jobs q) j Hj Hid) as [? Hs].
      by rewrite Hf in Hs. }
  split; [exact Hr|]. unfold run_loop_step. by rewrite Hr.
Qed.

Lemma mark_running_blocks_executor_witness :
  (∃ j, j ∈ jobs one_job_queue ∧ job_id j = "u1") ∧
  run_loop_step test_handler T3 T4 (snd (mark_running T2 "u1" one_job_queue)) =
    (snd (mark_running T2 "u1" one_job_queue), []).
Proof.
  assert (∃ j, j ∈ jobs one_job_queue ∧ job_id j = "u1") as Hex.
  { exists (default (make_job "" "" "" 0) (get_job "u1" one_job_queue)).
    split; [|vm_compute; reflexivity].
    vm_compute. apply elem_of_cons. by left. }
  split; [exact Hex|].
  exact (proj2 (mark_running_blocks_executor test_handler T2 T3 T4 "u1" one_job_queue Hex)).
Defined.

(** ** The executor (executor.rs) *)

Section ExecutorFacts.
Context {D : Type}.
Implicit Types (q : BatchQueue D) (job : BatchJob D) (h : Handler D).

Lemma find_job_insert (js : list (BatchJob D)) id i jc y :
  find_job js id = Some (i, jc) → job_id y = id →
  find_job (<[i:=y]> js) id = Some (i, y).
Proof. intros Hj Hy. unfold find_job in *. exact (list_find_insert_same _ _ _ jc _ Hj Hy). Qed.

Lemma find_job_lookup (js : list (BatchJob D)) id i jc :
  find_job js id = Some (i, jc) → js !! i = Some jc ∧ job_id jc = id.
Proof. intros Hj. unfold find_job in Hj. apply list_find_Some in Hj. tauto. Qed.

Lemma find_item_unique (l : list (BatchItem D)) k y :
  NoDup (map item_id l) → l !! k = Some y → find_item l (item_id y) = Some (k, y).
Proof.
  intros Hnd Hk. unfold find_item. apply list_find_Some. split_and!; [done|done|].
  intros j z Hz Hlt Hid.
  assert (j = k); [|lia].
  eapply (NoDup_lookup (map item_id l)); [done| |].
  - rewrite lookup_map_list, Hz. simpl. by rewrite Hid.
  - by rewrite lookup_map_list, Hk.
Qed.

Lemma process_items_cons h job total k x its q evs c :
  process_items h job total k (x :: its) q evs c =
  match cancel_check (job_id job) x q with
  | FlowContinue => process_items h job total (S k) its q evs (S c)
  | FlowBreak => (q, evs)
  | FlowProceed =>
      if bool_decide (overwrite_policy job = Skip) &&
         should_skip h k (data x) (operation job) then
        process_items h job total (S k) its
          (snd (update_item (job_id job) (item_id x) ItemSkipped
                  (Some "Skipped: already has data") None q))
          (evs ++ [ItemProgressEvent (job_id job) (item_id x) ItemSkipped (S c) total
                     (Some "Skipped") None
                     (estimate_remaining_ms (job_id job)
                        (snd (update_item (job_id job) (item_id x) ItemSkipped
                                (Some "Skipped: already has data") None q)))]) (S c)
      else
        match item_outcome (process h k (data x) (resource_key job) (operation job)) with
        | (status, err) =>
            process_items h job total (S k) its
              (snd (update_item (job_id job) (item_id x) status err (Some (elapsed_ms h k))
                      (snd (update_item (job_id job) (item_id x) ItemRunning None None q))))
              (evs ++ [ItemProgressEvent (job_id job) (item_id x) status (S c) total err
                         (Some (elapsed_ms h k))
                         (estimate_remaining_ms (job_id job)
                            (snd (update_item (job_id job) (item_id x) status err
                                    (Some (elapsed_ms h k))
                                    (snd (update_item (job_id job) (item_id x) ItemRunning
                                            None None q)))))]) (S c)
        end
  end.
Proof. reflexivity. Qed.

Lemma map_item_id_imap (f : nat → BatchItem D → BatchItem D) (l : list (BatchItem D)) :
  (∀ k it, item_id (f k it) = item_id it) → map item_id (imap f l) = map item_id l.
Proof.
  revert f. induction l as [|x l IH]; intros f Hf; [done|].
  rewrite imap_cons. simpl. rewrite Hf, IH; [done|]. intros k it. apply Hf.
Qed.

Lemma expected_item_id h job k it : item_id (expected_item h job k it) = item_id it.
Proof.
  unfold expected_item. destruct (decide _); [done|]. destruct (_ && _); [done|].
  by destruct (item_outcome _).
Qed.

Lemma expected_item_final h job k it :
  item_status (expected_item h job k it) ≠ ItemPending ∧
  item_status (expected_item h job k it) ≠ ItemRunning.
Proof.
  unfold expected_item. destruct (decide _) as [Hc|]; [by rewrite Hc|].
  destruct (_ && _); [done|].
  destruct (process h k (data it) (resource_key job) (operation job)) as [[[] ? ?]|];
    simpl; done.
Qed.

Lemma expected_item_cancelled h job k it :
  item_status it = ItemCancelled → expected_item h job k it = it.
Proof. intros Hc. unfold expected_item. by rewrite decide_True. Qed.

Lemma imap_snoc (f : nat → BatchItem D → BatchItem D) (l : list (BatchItem D)) x :
  imap f (l ++ [x]) = imap f l ++ [f (length l) x].
Proof. rewrite imap_app. simpl. by rewrite Nat.add_0_r. Qed.

Lemma insert_at_length (l rest : list (BatchItem D)) (x v : BatchItem D) k :
  k = length l → <[k:=v]> (l ++ x :: rest) = l ++ v :: rest.
Proof. intros ->. rewrite insert_app_r_alt by lia. by rewrite Nat.sub_diag. Qed.

(** The loop invariant of [process_batch_job]: after the items [pre],
    the job at slot [i] carries their expected states and the remaining
    items untouched. *)
Lemma imap_offset_cons (f : nat → BatchItem D → BatchItem D) n x (l : list (BatchItem D)) :
  imap (λ k, f (n + k)) (x :: l) = f n x :: imap (λ k, f (S n + k)) l.
Proof.
  rewrite imap_cons, Nat.add_0_r. f_equal. apply imap_ext. intros k y _. simpl.
  by rewrite Nat.add_succ_r.
Qed.

Lemma item_outcome_not_cancelled r st err :
  item_outcome r = (st, err) → st ≠ ItemCancelled.
Proof.
  destruct r as [ir|msg]; simpl; [destruct (success ir)|]; intros [= <- _]; discriminate.
Qed.

Lemma process_items_spec h job total (i : nat) (x0 : BatchJob D) (q0 : BatchQueue D)
    (jr : BatchJob D) :
  find_job (jobs q0) (job_id job) = Some (i, x0) →
  job_id jr = job_id job → job_status jr ≠ Cancelled →
  NoDup (map item_id (items job)) →
  ∀ its pre q evs c,
    items job = pre ++ its →
    jobs q = <[i := set_items jr (imap (expected_item h job) pre ++ its)]> (jobs q0) →
    ∃ q' evs',
      process_items h job total (length pre) its q evs c = (q', evs ++ evs') ∧
      jobs q' = <[i := set_items jr (imap (expected_item h job) (items job))]> (jobs q0) ∧
      length evs' = length (filter (λ it, item_status it ≠ ItemCancelled) its) ∧
      map progress_of evs' =
        map (item_report (job_id job))
          (filter (λ it, item_status it ≠ ItemCancelled)
             (imap (λ n, expected_item h job (length pre + n)) its)).
Proof.
  intros Hx0 Hjr Hst Hnd its. induction its as [|x its IH]; intros pre q evs c Hsplit Hq.
  - exists q, []. rewrite app_nil_r in Hsplit, Hq. rewrite !app_nil_r.
    split_and!; [done| |done|done]. by rewrite Hq, Hsplit.
  - set (E := expected_item h job) in *.
    set (cur := set_items jr (imap E pre ++ x :: its)).
    assert (find_job (jobs q) (job_id job) = Some (i, cur)) as Hfind.
    { rewrite Hq. eapply find_job_insert; [exact Hx0|exact Hjr]. }
    assert (∀ y, item_id y = item_id x →
            map item_id (imap E pre ++ y :: its) = map item_id (items job)) as Hids.
    { intros y Hy. rewrite Hsplit, !map_app. simpl. rewrite Hy.
      rewrite map_item_id_imap; [done|]. apply expected_item_id. }
    assert (∀ y, item_id y = item_id x →
            find_item (imap E pre ++ y :: its) (item_id x) = Some (length pre, y)) as Hfi.
    { intros y Hy. rewrite <- Hy. apply find_item_unique.
      - rewrite Hids by done. exact Hnd.
      - rewrite lookup_app_r; rewrite length_imap; [|lia].
        by rewrite Nat.sub_diag. }
    assert (imap E (pre ++ [x]) ++ its = imap E pre ++ E (length pre) x :: its) as Hsnoc.
    { rewrite imap_snoc, <- app_assoc. done. }
    assert (items job = (pre ++ [x]) ++ its) as Hsplit'.
    { rewrite Hsplit, <- app_assoc. done. }
    assert (length (pre ++ [x]) = S (length pre)) as Hlen.
    { rewrite length_app. simpl. lia. }
    assert (cancel_check (job_id job) x q =
              if decide (item_status x = ItemCancelled) then FlowContinue
              else FlowProceed) as Hcc.
    { unfold cancel_check, get_job. rewrite Hfind. simpl.
      rewrite (Hfi x eq_refl). destruct (decide _); [done|].
      rewrite decide_False; [done|]. exact Hst. }
    rewrite process_items_cons, Hcc, imap_offset_cons.
    destruct (decide (item_status x = ItemCancelled)) as [Hc|Hc].
    + destruct (IH (pre ++ [x]) q evs (S c) Hsplit') as (q' & evs' & Hrun & Hjobs & Hcount & Hprog).
      { rewrite Hq, Hsnoc. unfold E. rewrite (expected_item_cancelled h job _ x Hc). done. }
      rewrite Hlen in Hrun, Hprog. exists q', evs'. split_and!; [done|done| |].
      * rewrite filter_cons, decide_False by tauto. exact Hcount.
      * unfold E. rewrite (expected_item_cancelled h job _ x Hc).
        rewrite filter_cons_False by tauto. exact Hprog.
    + destruct (bool_decide (overwrite_policy job = Skip) &&
                should_skip h (length pre) (data x) (operation job)) eqn:Hskip.
      * set (v := set_item_result x ItemSkipped (Some "Skipped: already has data") None).
        assert (E (length pre) x = v) as HE.
        { unfold E, expected_item. rewrite decide_False by done. by rewrite Hskip. }
        set (q1 := snd (update_item (job_id job) (item_id x) ItemSkipped
                          (Some "Skipped: already has data") None q)).
        assert (jobs q1 = <[i := set_items jr (imap E (pre ++ [x]) ++ its)]> (jobs q0)) as Hq1.
        { unfold q1. rewrite (update_item_found _ _ _ _ _ _ _ _ _ _ Hfind (Hfi x eq_refl)).
          simpl. rewrite Hq, list_insert_insert_eq, Hsnoc, HE.
          unfold cur. simpl. rewrite (insert_at_length _ _ x v); [done|].
          by rewrite length_imap. }
        match goal with
        | |- context [process_items h job total (S (length pre)) its q1 ?e' (S c)] =>
            destruct (IH (pre ++ [x]) q1 e' (S c) Hsplit' Hq1)
              as (q' & evs' & Hrun & Hjobs & Hcount & Hprog)
        end.
        rewrite Hlen in Hrun, Hprog. eexists q', (_ :: evs'). split_and!.
        -- rewrite Hrun, <- app_assoc. reflexivity.
        -- done.
        -- rewrite filter_cons, decide_True by done. simpl. by rewrite Hcount.
        -- rewrite HE, filter_cons_True by (unfold v; simpl; discriminate).
           simpl. rewrite Hprog. reflexivity.
      * destruct (item_outcome (process h (length pre) (data x) (resource_key job)
                                  (operation job))) as [st err] eqn:Ho.
        set (r := set_item_result x ItemRunning None None).
        set (q1 := snd (update_item (job_id job) (item_id x) ItemRunning None None q)).
        set (cur1 := set_items jr (imap E pre ++ r :: its)).
        assert (jobs q1 = <[i := cur1]> (jobs q0)) as Hq1.
        { unfold q1. rewrite (update_item_found _ _ _ _ _ _ _ _ _ _ Hfind (Hfi x eq_refl)).
          simpl. rewrite Hq, list_insert_insert_eq.
          unfold cur, cur1. simpl. rewrite (insert_at_length _ _ x r); [done|].
          by rewrite length_imap. }
        assert (find_job (jobs q1) (job_id job) = Some (i, cur1)) as Hfind1.
        { rewrite Hq1. eapply find_job_insert; [exact Hx0|exact Hjr]. }
        set (v := set_item_result x st err (Some (elapsed_ms h (length pre)))).
        assert (E (length pre) x = v) as HE.
        { unfold E, expected_item. rewrite decide_False by done. rewrite Hskip, Ho. done. }
        set (q2 := snd (update_item (job_id job) (item_id x) st err
                          (Some (elapsed_ms h (length pre))) q1)).
        assert (jobs q2 = <[i := set_items jr (imap E (pre ++ [x]) ++ its)]> (jobs q0)) as Hq2.
        { unfold q2. rewrite (update_item_found _ _ _ _ _ _ _ _ _ _ Hfind1 (Hfi r eq_refl)).
          simpl. rewrite Hq1, list_insert_insert_eq, Hsnoc, HE.
          unfold cur1. simpl. rewrite (insert_at_length _ _ r v); [done|].
          by rewrite length_imap. }
        match goal with
        | |- context [process_items h job total (S (length pre)) its q2 ?e' (S c)] =>
            destruct (IH (pre ++ [x]) q2 e' (S c) Hsplit' Hq2)
              as (q' & evs' & Hrun & Hjobs & Hcount & Hprog)
        end.
        rewrite Hlen in Hrun, Hprog. eexists q', (_ :: evs'). split_and!.
        -- rewrite Hrun, <- app_assoc. reflexivity.
        -- done.
        -- rewrite filter_cons, decide_True by done. simpl. by rewrite Hcount.
        -- rewrite HE, filter_cons_True by (unfold v; simpl; exact (item_outcome_not_cancelled _ _ _ Ho)).
           simpl. rewrite Hprog. reflexivity.
Qed.
Lemma update_item_status_shape jid iid st err dur q i jc :
  find_job (jobs q) jid = Some (i, jc) →
  ∃ y, job_id y = jid ∧ job_status y = job_status jc ∧
       jobs (snd (update_item jid iid st err dur q)) = <[i:=y]> (jobs q).
Proof.
  intros Hj. destruct (find_job_lookup _ _ _ _ Hj) as [Hl Hid].
  unfold update_item. rewrite Hj. destruct (find_item (items jc) iid) as [[k it]|].
  - exists (set_items jc (<[k := set_item_result it st err dur]> (items jc))).
    split_and!; [exact Hid|reflexivity|reflexivity].
  - exists jc. split_and!; [done|done|]. simpl. by rewrite list_insert_id.
Qed.

(** The loop changes no job status. *)
Lemma process_items_status_shape h job total its :
  ∀ k q evs c i jc,
    find_job (jobs q) (job_id job) = Some (i, jc) →
    ∃ y, job_id y = job_id job ∧ job_status y = job_status jc ∧
         jobs (fst (process_items h job total k its q evs c)) = <[i:=y]> (jobs q).
Proof.
  induction its as [|x its IH]; intros k q evs c i jc Hj.
  - destruct (find_job_lookup _ _ _ _ Hj) as [Hl Hid].
    exists jc. split_and!; [done|done|]. simpl. by rewrite list_insert_id.
  - rewrite process_items_cons. destruct (cancel_check _ x q).
    + exact (IH _ _ _ _ _ _ Hj).
    + destruct (find_job_lookup _ _ _ _ Hj) as [Hl Hid].
      exists jc. split_and!; [done|done|]. simpl. by rewrite list_insert_id.
    + destruct (_ && _).
      * destruct (update_item_status_shape (job_id job) (item_id x) ItemSkipped
                    (Some "Skipped: already has data") None q i jc Hj)
          as (y1 & Hy1 & Hs1 & Hq1).
        match goal with
        | |- context [process_items h job total (S k) its ?q' ?e' (S c)] =>
            destruct (IH (S k) q' e' (S c) i y1) as (y & Hy & Hs & Hq)
        end.
        { rewrite Hq1. eapply find_job_insert; [exact Hj|exact Hy1]. }
        exists y. split_and!; [done|congruence|]. rewrite Hq, Hq1.
        apply list_insert_insert_eq.
      * destruct (item_outcome _) as [st err].
        destruct (update_item_status_shape (job_id job) (item_id x) ItemRunning None None
                    q i jc Hj) as (y1 & Hy1 & Hs1 & Hq1).
        assert (find_job (jobs (snd (update_item (job_id job) (item_id x) ItemRunning
                                       None None q)))
                  (job_id job) = Some (i, y1)) as Hj1.
        { rewrite Hq1. eapply find_job_insert; [exact Hj|exact Hy1]. }
        destruct (update_item_status_shape (job_id job) (item_id x) st err
                    (Some (elapsed_ms h k)) _ i y1 Hj1) as (y2 & Hy2 & Hs2 & Hq2).
        match goal with
        | |- context [process_items h job total (S k) its ?q' ?e' (S c)] =>
            destruct (IH (S k) q' e' (S c) i y2) as (y & Hy & Hs & Hq)
        end.
        { rewrite Hq2. eapply find_job_insert; [exact Hj1|exact Hy2]. }
        exists y. split_and!; [done|congruence|].
        rewrite Hq, Hq2, Hq1, !list_insert_insert_eq. done.
Qed.

Lemma mark_running_found t id q i jc :
  find_job (jobs q) id = Some (i, jc) →
  ∃ y, job_id y = id ∧ job_status y = Running ∧
       mark_running t id q = (Ok (), {| jobs := <[i:=y]> (jobs q); eta := eta q |}).
Proof.
  intros Hj. destruct (find_job_lookup _ _ _ _ Hj) as [Hl Hid].
  unfold mark_running. rewrite Hj. eexists.
  split_and!; [| |reflexivity]; [exact Hid|reflexivity].
Qed.

(** [process_batch_job] leaves the first job with the snapshot's id
    Completed or CompletedWithErrors, whatever the snapshot holds. *)
Lemma process_batch_job_status_shape h t1 t2 q job i jc :
  find_job (jobs q) (job_id job) = Some (i, jc) →
  ∃ y, job_id y = job_id job ∧
       (job_status y = Completed ∨ job_status y = CompletedWithErrors) ∧
       jobs (fst (process_batch_job h t1 t2 q job)) = <[i:=y]> (jobs q).
Proof.
  intros Hj. destruct (mark_running_found t1 (job_id job) q i jc Hj) as (y1 & Hy1 & Hs1 & Hm).
  unfold process_batch_job. rewrite Hm.
  set (q1 := {| jobs := <[i:=y1]> (jobs q); eta := eta q |}).
  assert (find_job (jobs q1) (job_id job) = Some (i, y1)) as Hj1.
  { eapply find_job_insert; [exact Hj|exact Hy1]. }
  destruct (process_items_status_shape h job (length (items job)) (items job) 0 q1
              [JobStartedEvent (job_id job) (operation job) (resource_key job)
                 (length (items job))] 0 i y1 Hj1) as (y2 & Hy2 & Hs2 & Hq2).
  destruct (process_items _ _ _ _ _ _ _ _) as [q2 evs] eqn:Hp. simpl in Hq2.
  assert (find_job (jobs q2) (job_id job) = Some (i, y2)) as Hj2.
  { rewrite Hq2. eapply find_job_insert; [exact Hj1|exact Hy2]. }
  set (st := if decide (0 < length (filter (λ it, item_status it = ItemFailed) (items y2)))
             then CompletedWithErrors else Completed).
  assert (jobs (snd (mark_completed t2 (job_id job) q2)) =
            <[i := set_status_completed_at y2 st (Some t2)]> (jobs q2)) as Hq3.
  { unfold mark_completed. rewrite Hj2. reflexivity. }
  exists (set_status_completed_at y2 st (Some t2)). split_and!.
  - exact Hy2.
  - simpl. unfold st. destruct (decide _); [by right|by left].
  - destruct (mark_completed t2 (job_id job) q2) as [[[s|]|e] q3]; simpl in Hq3 |- *;
      rewrite Hq3, Hq2; simpl; rewrite !list_insert_insert_eq; done.
Qed.
End ExecutorFacts.

Lemma summary_counts_cover {D} (l : list (BatchItem D)) :
  Forall (λ it, item_status it ≠ ItemPending ∧ item_status it ≠ ItemRunning) l →
  length (filter (λ it, item_status it = ItemCompleted) l) +
  length (filter (λ it, item_status it = ItemFailed) l) +
  length (filter (λ it, item_status it = ItemCancelled ∨ item_status it = ItemSkipped) l) =
  length l.
Proof.
  induction 1 as [|it l [H1 H2] _ IH]; [done|].
  rewrite !filter_cons. destruct (item_status it) eqn:Hs; try congruence;
    repeat case_decide; simpl; try (exfalso; naive_solver); lia.
Qed.

Lemma filter_failed_existsb {D} (l : list (BatchItem D)) :
  0 < length (filter (λ it, item_status it = ItemFailed) l) ↔
  existsb (λ it, bool_decide (item_status it = ItemFailed)) l = true.
Proof.
  induction l as [|it l IH]; simpl; [split; [lia|done]|].
  rewrite filter_cons, orb_true_iff. destruct (decide _) as [Hf|Hf].
  - rewrite bool_decide_eq_true_2 by done. simpl. split; [by left|lia].
  - rewrite bool_decide_eq_false_2 by done. rewrite <- IH. split; [by right|].
    intros [?|?]; [done|lia].
Qed.

(** What [process_batch_job] does to the queue and which events it emits,
    when [find_job] locates the snapshot itself and its item ids are
    distinct. *)
Lemma process_batch_job_spec {D} (h : Handler D) (t1 t2 : string) (q : BatchQueue D)
    (job : BatchJob D) (i : nat) :
  find_job (jobs q) (job_id job) = Some (i, job) →
  NoDup (map item_id (items job)) →
  let r := process_batch_job h t1 t2 q job in
  let its' := imap (expected_item h job) (items job) in
  ∃ j' s evs,
    jobs (fst r) = <[i := j']> (jobs q) ∧
    job_id j' = job_id job ∧ resource_key j' = resource_key job ∧
    operation j' = operation job ∧ items j' = its' ∧
    job_status j' = (if existsb (λ it, bool_decide (item_status it = ItemFailed)) its'
                     then CompletedWithErrors else Completed) ∧
    started_at j' = Some t1 ∧ completed_at j' = Some t2 ∧
    Forall (λ it, item_status it ≠ ItemPending ∧ item_status it ≠ ItemRunning) its' ∧
    snd r = JobStartedEvent (job_id job) (operation job) (resource_key job)
              (length (items job)) :: evs ++ [JobCompletedEvent s] ∧
    length evs = length (filter (λ it, item_status it ≠ ItemCancelled) (items job)) ∧
    map progress_of evs =
      map (item_report (job_id job)) (filter (λ it, item_status it ≠ ItemCancelled) its') ∧
    total s = length (items job) ∧
    succeeded s + failed s + skipped s = length (items job).
Proof.
  intros Hj Hnd r its'. subst r.
  set (jr := {| job_id := job_id job; resource_key := resource_key job;
                operation := operation job; overwrite_policy := overwrite_policy job;
                items := items job; job_status := Running; created_at := created_at job;
                started_at := Some t1; completed_at := completed_at job;
                reordered := reordered job; reorder_note := reorder_note job |}).
  set (q1 := {| jobs := <[i:=jr]> (jobs q); eta := eta q |}).
  assert (mark_running t1 (job_id job) q = (Ok (), q1)) as Hm.
  { unfold mark_running. by rewrite Hj. }
  set (e0 := JobStartedEvent (job_id job) (operation job) (resource_key job)
               (length (items job))).
  destruct (process_items_spec h job (length (items job)) i job q jr Hj eq_refl
              ltac:(discriminate) Hnd (items job) [] q1 [e0] 0 eq_refl eq_refl)
    as (q2 & evs & Hrun & Hjobs2 & Hcount & Hprog).
  simpl in Hrun.
  assert (Forall (λ it, item_status it ≠ ItemPending ∧ item_status it ≠ ItemRunning) its')
    as Hfinal.
  { apply Forall_lookup. intros k it Hk. unfold its' in Hk.
    apply list_lookup_imap_Some in Hk as (it0 & _ & ->). apply expected_item_final. }
  set (jf := set_items jr its').
  assert (find_job (jobs q2) (job_id job) = Some (i, jf)) as Hf2.
  { rewrite Hjobs2. eapply find_job_insert; [exact Hj|reflexivity]. }
  unfold process_batch_job. rewrite Hm. fold e0. rewrite Hrun.
  unfold mark_completed. rewrite Hf2.
  eexists _, _, evs. simpl. split_and!.
  - rewrite Hjobs2, list_insert_insert_eq. reflexivity.
  - done.
  - done.
  - done.
  - done.
  - destruct (decide _) as [Hp|Hp].
    + by rewrite (proj1 (filter_failed_existsb _) Hp).
    + destruct (existsb _ its') eqn:He; [|done].
      exfalso. apply Hp. by apply filter_failed_existsb.
  - done.
  - done.
  - exact Hfinal.
  - done.
  - done.
  - exact Hprog.
  - unfold its'. by rewrite length_imap.
  - transitivity (length its'); [|unfold its'; apply length_imap].
    rewrite <- (summary_counts_cover its' Hfinal). reflexivity.
Qed.

Lemma existsb_insert {A} (f : A → bool) (l : list A) i y :
  existsb f (<[i:=y]> l) = true → f y = true ∨ existsb f l = true.
Proof.
  revert i. induction l as [|x l IH]; intros [|i]; simpl; [done|done| |].
  - rewrite !orb_true_iff. tauto.
  - rewrite !orb_true_iff. intros [Hx|Hr]; [by right; left|].
    destruct (IH i Hr); [by left|by right; right].
Qed.

Lemma length_filter_insert {A} (P : A → Prop) `{∀ x, Decision (P x)} (l : list A) i x y :
  l !! i = Some x → P x → ¬ P y →
  length (filter P (<[i:=y]> l)) = length (filter P l) - 1.
Proof.
  revert i. induction l as [|z l IH]; intros [|i] Hi Hx Hy; simpl in Hi; [done|done| |].
  - injection Hi as ->. change (<[0:=y]> (x :: l)) with (y :: l).
    rewrite !filter_cons, decide_False, decide_True by done. simpl. lia.
  - change (<[S i:=y]> (z :: l)) with (z :: <[i:=y]> l).
    assert (0 < length (filter P l)).
    { apply length_filter_pos_Exists, Exists_exists. exists x.
      split; [by eapply list_elem_of_lookup_2|done]. }
    destruct (decide (P z)) as [Hz|Hz].
    + rewrite !filter_cons_True by exact Hz. simpl. rewrite (IH i Hi Hx Hy). lia.
    + rewrite !filter_cons_False by exact Hz. exact (IH i Hi Hx Hy).
Qed.

Lemma filter_remaining_nil {D} (l : list (BatchItem D)) :
  Forall (λ it, item_status it ≠ ItemPending ∧ item_status it ≠ ItemRunning) l →
  filter (λ it, item_status it = ItemPending ∨ item_status it = ItemRunning) l = [].
Proof.
  induction 1 as [|it l [H1 H2] _ IH]; [done|].
  rewrite filter_cons, decide_False by tauto. exact IH.
Qed.

Lemma next_queued_Some {D} (q : BatchQueue D) job :
  next_queued q = Some job → job ∈ jobs q ∧ job_status job = Queued.
Proof.
  unfold next_queued. destruct (list_find _ _) as [[k j]|] eqn:Hf; simpl; [|done].
  intros [= ->]. apply list_find_Some in Hf as (Hk & Hq & _).
  split; [by eapply list_elem_of_lookup_2|done].
Qed.

(** [process_batch_job] with distinct item ids, on a snapshot that is the
    first job with its id: the job is marked Running at [t_start] and
    Completed at [t_end] ([CompletedWithErrors] if an item failed); every
    item not Cancelled goes through the loop, so it ends Skipped (Skip
    policy and [should_skip]) or with its handler outcome and measured
    duration, including items that were already Completed, while
    Cancelled items are left alone; the events are one [job_started], one
    [item_progress] per non-Cancelled item and one [job_completed] whose
    summary counts every item; no other job changes. *)
Theorem process_batch_job_outcome {D} (h : Handler D) (t1 t2 : string) (q : BatchQueue D)
    (job : BatchJob D) (i : nat) :
  find_job (jobs q) (job_id job) = Some (i, job) →
  NoDup (map item_id (items job)) →
  let r := process_batch_job h t1 t2 q job in
  let its' := imap (expected_item h job) (items job) in
  ∃ j' s evs,
    jobs (fst r) = <[i := j']> (jobs q) ∧
    job_id j' = job_id job ∧ resource_key j' = resource_key job ∧
    operation j' = operation job ∧ items j' = its' ∧
    job_status j' = (if existsb (λ it, bool_decide (item_status it = ItemFailed)) its'
                     then CompletedWithErrors else Completed) ∧
    started_at j' = Some t1 ∧ completed_at j' = Some t2 ∧
    Forall (λ it, item_status it ≠ ItemPending ∧ item_status it ≠ ItemRunning) its' ∧
    snd r = JobStartedEvent (job_id job) (operation job) (resource_key job)
              (length (items job)) :: evs ++ [JobCompletedEvent s] ∧
    length evs = length (filter (λ it, item_status it ≠ ItemCancelled) (items job)) ∧
    map progress_of evs =
      map (item_report (job_id job)) (filter (λ it, item_status it ≠ ItemCancelled) its') ∧
    total s = length (items job) ∧
    succeeded s + failed s + skipped s = length (items job).
Proof. intros Hj Hnd. exact (process_batch_job_spec h t1 t2 q job i Hj Hnd). Qed.

Lemma process_batch_job_outcome_witness :
  let job := default (make_job "" "" "" 0) (next_queued one_job_queue) in
  find_job (jobs one_job_queue) (job_id job) = Some (0, job) ∧
  NoDup (map item_id (items job)) ∧
  map item_status (imap (expected_item test_handler job) (items job)) =
    [ItemCompleted; ItemFailed; ItemCompleted] ∧
  ∃ j', jobs (fst (process_batch_job test_handler T2 T3 one_job_queue job)) = [j'] ∧
        job_status j' = CompletedWithErrors.
Proof.
  intros job.
  assert (find_job (jobs one_job_queue) (job_id job) = Some (0, job)) as Hj
    by (vm_compute; reflexivity).
  assert (NoDup (map item_id (items job))) as Hnd
    by (apply (bool_decide_eq_true_1 _); vm_compute; reflexivity).
  split; [exact Hj|]. split; [exact Hnd|]. split; [vm_compute; reflexivity|].
  destruct (process_batch_job_outcome test_handler T2 T3 one_job_queue job 0 Hj Hnd)
    as (j' & s & evs & Hjobs & _ & _ & _ & Hits & Hst & _).
  exists j'. split.
  - rewrite Hjobs. reflexivity.
  - rewrite Hst. vm_compute. reflexivity.
Defined.

(** When the job [next_queued] picks is not the first job carrying its
    id, an executor-loop iteration processes and completes that first job
    instead; every other slot, the picked job included, is left as it
    was. So no job is Running afterwards, the same job is still the next
    queued one, and the next iteration processes it again. *)
Theorem run_loop_step_shadowed_job_requeued {D} (h : Handler D) (t1 t2 : string)
    (q : BatchQueue D) (job jc : BatchJob D) (i i1 : nat) :
  has_running_job q = false →
  list_find (λ j, job_status j = Queued) (jobs q) = Some (i1, job) →
  find_job (jobs q) (job_id job) = Some (i, jc) →
  i ≠ i1 →
  let q' := fst (run_loop_step h t1 t2 q) in
  (∀ i', i' ≠ i → jobs q' !! i' = jobs q !! i') ∧
  (∃ j', jobs q' !! i = Some j' ∧ job_id j' = job_id job ∧
         (job_status j' = Completed ∨ job_status j' = CompletedWithErrors)) ∧
  jobs q' !! i1 = Some job ∧
  has_running_job q' = false ∧
  next_queued q' = Some job ∧
  (∀ t1' t2', run_loop_step h t1' t2' q' = process_batch_job h t1' t2' q' job).
Proof.
  intros Hr Hf Hj Hne q'.
  assert (next_queued q = Some job) as Hn by (unfold next_queued; by rewrite Hf).
  assert (q' = fst (process_batch_job h t1 t2 q job)) as Hq'
    by (subst q'; unfold run_loop_step; by rewrite Hr, Hn).
  clearbody q'. subst q'.
  destruct (process_batch_job_status_shape h t1 t2 q job i jc Hj) as (y & Hy & Hs & Hq).
  set (q' := fst (process_batch_job h t1 t2 q job)) in *.
  pose proof Hf as (Hl1 & Hq1 & Hmin1)%list_find_Some.
  pose proof Hj as Hj'. unfold find_job in Hj'.
  apply list_find_Some in Hj' as (Hl & Hid & Hminj).
  assert (i < i1) as Hlt.
  { destruct (decide (i1 < i)) as [Hlt|Hlt]; [|lia].
    exfalso. exact (Hminj i1 job Hl1 Hlt eq_refl). }
  assert (∀ i', i' ≠ i → jobs q' !! i' = jobs q !! i') as Hfr.
  { intros i' Hi'. rewrite Hq. by apply list_lookup_insert_ne. }
  assert (jobs q' !! i = Some y) as Hyi.
  { rewrite Hq. apply list_lookup_insert_eq. by eapply lookup_lt_Some. }
  assert (jobs q' !! i1 = Some job) as Hi1 by (rewrite Hfr by lia; exact Hl1).
  assert (has_running_job q' = false) as Hr'.
  { unfold has_running_job in *. rewrite Hq.
    destruct (existsb _ (<[i:=y]> (jobs q))) eqn:He; [|done].
    destruct (existsb_insert _ _ _ _ He) as [Hy'|Hy']; [|by rewrite Hr in Hy'].
    apply bool_decide_eq_true in Hy'. destruct Hs as [Hd|Hd]; congruence. }
  assert (next_queued q' = Some job) as Hn'.
  { unfold next_queued.
    assert (list_find (λ j, job_status j = Queued) (jobs q') = Some (i1, job)) as ->;
      [|done].
    apply list_find_Some. split_and!; [exact Hi1|exact Hq1|].
    intros k z Hz Hk. destruct (decide (k = i)) as [->|Hki].
    - rewrite Hyi in Hz. injection Hz as <-. destruct Hs as [Hd|Hd]; congruence.
    - rewrite Hfr in Hz by done. exact (Hmin1 k z Hz Hk). }
  split_and!; [exact Hfr| |exact Hi1|exact Hr'|exact Hn'|].
  - exists y. split_and!; [exact Hyi|exact Hy|exact Hs].
  - intros t1' t2'. unfold run_loop_step. by rewrite Hr', Hn'.
Qed.

(** Witness: a finished job shares its id with the queued job the
    executor picks. *)
Lemma run_loop_step_shadowed_job_requeued_witness :
  let job := default (make_job "" "" "" 0) (next_queued shadowed_id_queue) in
  let jc := default (make_job "" "" "" 0) (head (jobs shadowed_id_queue)) in
  has_running_job shadowed_id_queue = false ∧
  list_find (λ j, job_status j = Queued) (jobs shadowed_id_queue) = Some (1, job) ∧
  find_job (jobs shadowed_id_queue) (job_id job) = Some (0, jc) ∧
  next_queued (fst (run_loop_step test_handler T5 T6 shadowed_id_queue)) = Some job.
Proof.
  intros job jc.
  assert (has_running_job shadowed_id_queue = false) as Hr by (vm_compute; reflexivity).
  assert (list_find (λ j, job_status j = Queued) (jobs shadowed_id_queue) = Some (1, job))
    as Hf by (vm_compute; reflexivity).
  assert (find_job (jobs shadowed_id_queue) (job_id job) = Some (0, jc)) as Hj
    by (vm_compute; reflexivity).
  split_and!; [exact Hr|exact Hf|exact Hj|].
  destruct (run_loop_step_shadowed_job_requeued test_handler T5 T6 shadowed_id_queue
              job jc 0 1 Hr Hf Hj ltac:(discriminate)) as (_ & _ & _ & _ & Hn & _).
  exact Hn.
Defined.

(** One iteration of the executor loop, on a queue with no Running job
    whose next queued job is the first job with its id and has distinct
    item ids: afterwards no job is Running, one job fewer is queued, that
    job is Completed or CompletedWithErrors and its remaining-time
    estimate is 0. *)
Theorem run_loop_step_completes {D} (h : Handler D) (t1 t2 : string) (q : BatchQueue D)
    (job : BatchJob D) (i : nat) :
  has_running_job q = false →
  next_queued q = Some job →
  find_job (jobs q) (job_id job) = Some (i, job) →
  NoDup (map item_id (items job)) →
  let q' := fst (run_loop_step h t1 t2 q) in
  has_running_job q' = false ∧
  queued_count q' = queued_count q - 1 ∧
  estimate_remaining_ms (job_id job) q' = Some 0%N ∧
  ∃ j', get_job (job_id job) q' = Some j' ∧
        (job_status j' = Completed ∨ job_status j' = CompletedWithErrors).
Proof.
  intros Hr Hn Hj Hnd q'. subst q'. unfold run_loop_step. rewrite Hr, Hn.
  destruct (next_queued_Some q job Hn) as [_ Hqd].
  destruct (find_job_lookup _ _ _ _ Hj) as [Hl _].
  destruct (process_batch_job_spec h t1 t2 q job i Hj Hnd)
    as (j' & s & evs & Hjobs & Hid & _ & _ & Hits & Hst & _ & _ & Hfinal & _).
  assert (job_status j' = Completed ∨ job_status j' = CompletedWithErrors) as Hdone.
  { rewrite Hst. destruct (existsb _ _); [by right|by left]. }
  assert (find_job (jobs (fst (process_batch_job h t1 t2 q job))) (job_id job) =
            Some (i, j')) as Hf.
  { rewrite Hjobs. eapply find_job_insert; [exact Hj|exact Hid]. }
  split_and!.
  - unfold has_running_job in *. rewrite Hjobs.
    destruct (existsb _ (<[i:=j']> (jobs q))) eqn:He; [|done].
    destruct (existsb_insert _ _ _ _ He) as [Hy|Hy]; [|by rewrite Hr in Hy].
    apply bool_decide_eq_true in Hy. destruct Hdone as [Hd|Hd]; congruence.
  - unfold queued_count. rewrite Hjobs. eapply length_filter_insert; [exact Hl|exact Hqd|].
    destruct Hdone as [Hd|Hd]; congruence.
  - unfold estimate_remaining_ms. rewrite Hf. simpl.
    rewrite Hits, filter_remaining_nil by exact Hfinal. done.
  - exists j'. split; [|exact Hdone]. unfold get_job. by rewrite Hf.
Qed.

Lemma run_loop_step_completes_witness :
  let job := default (make_job "" "" "" 0) (next_queued one_job_queue) in
  has_running_job one_job_queue = false ∧
  next_queued one_job_queue = Some job ∧
  find_job (jobs one_job_queue) (job_id job) = Some (0, job) ∧
  NoDup (map item_id (items job)) ∧
  queued_count (fst (run_loop_step test_handler T2 T3 one_job_queue)) = 0.
Proof.
  intros job.
  assert (has_running_job one_job_queue = false) as Hr by (vm_compute; reflexivity).
  assert (next_queued one_job_queue = Some job) as Hn by (vm_compute; reflexivity).
  assert (find_job (jobs one_job_queue) (job_id job) = Some (0, job)) as Hj
    by (vm_compute; reflexivity).
  assert (NoDup (map item_id (items job))) as Hnd
    by (apply (bool_decide_eq_true_1 _); vm_compute; reflexivity).
  split_and!; [exact Hr|exact Hn|exact Hj|exact Hnd|].
  destruct (run_loop_step_completes test_handler T2 T3 one_job_queue job 0 Hr Hn Hj Hnd)
    as (_ & -> & _).
  vm_compute. reflexivity.
Defined.

(** Two handlers that agree on every call the loop can make for the items
    it walks through give the same run. *)
Lemma process_items_handler_ext {D} (h h' : Handler D) (job : BatchJob D) (total : nat) :
  ∀ its k q evs c,
  (∀ n x, its !! n = Some x →
     let sk := bool_decide (overwrite_policy job = Skip) &&
               should_skip h (k + n) (data x) (operation job) in
     sk = bool_decide (overwrite_policy job = Skip) &&
          should_skip h' (k + n) (data x) (operation job) ∧
     (sk = false →
      process h (k + n) (data x) (resource_key job) (operation job) =
        process h' (k + n) (data x) (resource_key job) (operation job) ∧
      elapsed_ms h (k + n) = elapsed_ms h' (k + n))) →
  process_items h job total k its q evs c = process_items h' job total k its q evs c.
Proof.
  intros its. induction its as [|x its IH]; intros k q evs c Hagree; [done|].
  assert (∀ q1 evs1 c1,
            process_items h job total (S k) its q1 evs1 c1 =
            process_items h' job total (S k) its q1 evs1 c1) as IH'.
  { intros q1 evs1 c1. apply IH. intros n y Hy.
    replace (S k + n) with (k + S n) by lia. exact (Hagree (S n) y Hy). }
  destruct (Hagree 0 x eq_refl) as [Hskip Hproc]. rewrite Nat.add_0_r in Hskip, Hproc.
  rewrite !process_items_cons. destruct (cancel_check _ x q); [apply IH'|done|].
  rewrite <- Hskip.
  destruct (bool_decide _ && should_skip h k (data x) (operation job)) eqn:Hs;
    [apply IH'|].
  destruct (Hproc eq_refl) as [-> ->].
  destruct (item_outcome _). apply IH'.
Qed.

(** The handler's [should_skip] is consulted only under the [Skip]
    policy: under [Overwrite], replacing it changes nothing. Conversely,
    when a [Skip] job's [should_skip] answers true for every item of the
    job, the handler's [process] (and the clock) is never consulted. *)
Theorem process_batch_job_policy {D} (h : Handler D) (t1 t2 : string) (q : BatchQueue D)
    (job : BatchJob D) :
  (∀ sk, overwrite_policy job = Overwrite →
     process_batch_job {| should_skip := sk; process := process h; elapsed_ms := elapsed_ms h |}
       t1 t2 q job = process_batch_job h t1 t2 q job) ∧
  (∀ pr el, overwrite_policy job = Skip →
     (∀ k it, items job !! k = Some it → should_skip h k (data it) (operation job) = true) →
     process_batch_job {| should_skip := should_skip h; process := pr; elapsed_ms := el |}
       t1 t2 q job = process_batch_job h t1 t2 q job).
Proof.
  split.
  - intros sk Hp. unfold process_batch_job.
    destruct (mark_running _ _ _) as [[|] q1]; [|done].
    rewrite (process_items_handler_ext _ h); [done|].
    intros n x _. simpl. rewrite bool_decide_eq_false_2 by congruence. simpl.
    split; [done|]. intros _. done.
  - intros pr el Hp Hall. unfold process_batch_job.
    destruct (mark_running _ _ _) as [[|] q1]; [|done].
    rewrite (process_items_handler_ext _ h); [done|].
    intros n x Hx. simpl. split; [done|].
    rewrite (Hall n x Hx), bool_decide_eq_true_2 by done. done.
Qed.

(** Witness: a handler that skips exactly the positions of the job's
    three items. *)
Lemma process_batch_job_policy_witness :
  let job := default (make_job "" "" "" 0) (next_queued one_job_queue) in
  overwrite_policy job = Skip ∧
  (∀ k it, items job !! k = Some it → Nat.ltb k 3 = true) ∧
  process_batch_job {| should_skip := λ k _ _, Nat.ltb k 3;
                       process := λ _ _ _ _, ProcErr "boom";
                       elapsed_ms := λ _, 0%N |} T2 T3 one_job_queue job =
  process_batch_job {| should_skip := λ k _ _, Nat.ltb k 3;
                       process := process test_handler;
                       elapsed_ms := elapsed_ms test_handler |} T2 T3 one_job_queue job.
Proof.
  intros job.
  assert (overwrite_policy job = Skip) as Hp by (vm_compute; reflexivity).
  assert (∀ k it, items job !! k = Some it → Nat.ltb k 3 = true) as Hall.
  { intros k it Hk. apply lookup_lt_Some in Hk.
    assert (length (items job) = 3) as Hl by (vm_compute; reflexivity).
    apply Nat.ltb_lt. lia. }
  split_and!; [exact Hp|exact Hall|].
  exact (proj2 (process_batch_job_policy
                  {| should_skip := λ k _ _, Nat.ltb k 3; process := process test_handler;
                     elapsed_ms := elapsed_ms test_handler |} T2 T3 one_job_queue job)
           _ _ Hp Hall).
Defined.
